(** * umm: the user store (internal/userstore)

    A shallow embedding of the SQLite-backed user store of
    [internal/userstore/sqlite.go], with the part of [database/sql] and of the
    SQLite engine that the five statements of the store exercise, and the
    properties of the storage contract proved over it.

    Layout:
    - [GoStrings]  : [strings.Contains]
    - [Engine]     : the [users] table, the statements, transactions
    - [Userstore]  : [NewDb], [Close], [Create], [GetById], [ListAll],
                     [Update], [Delete], as in the source
    - [Reach]      : reachable store states, the table invariant, sequences
                     of calls
    - facts about the engine and the operations, case by case
    - [Scenario]   : the scenario of the contract, run
    - [Shell]      : the loop of [cmd/main.go] over the store
    - the theorems of the contract, C1 to C10
    - beyond the contract: opening, reading back, deleting, the shell. *)

From Stdlib Require Import ZArith List String Ascii Bool Lia Sorted.
Import ListNotations.

Local Open Scope string_scope.
Local Open Scope Z_scope.

(* ------------------------------------------------------------------------- *)
(** ** Go's [strings] package *)

Module GoStrings.

(** [strings.Contains(s, substr)]: [substr] occurs somewhere in [s]. *)
Fixpoint Contains (s substr : string) : bool :=
  String.prefix substr s
  || match s with
     | EmptyString => false
     | String _ s' => Contains s' substr
     end.

End GoStrings.

(* ------------------------------------------------------------------------- *)
(** ** The embedded engine: one table, five statements, transactions *)

Module Engine.

(** A [time.Time] / [DATETIME] value, in seconds counted from Go's zero
    time (January 1, year 1, 00:00:00 UTC); [CURRENT_TIMESTAMP] has a
    resolution of one second. *)
Definition Time := Z.

(** [t.IsZero()]. *)
Definition IsZero (t : Time) : bool := t =? 0.

(** The largest [int64], which is also SQLite's largest rowid. *)
Definition max_int64 : Z := 9223372036854775807.

(** A row of
<<
    CREATE TABLE IF NOT EXISTS users (
      id INTEGER PRIMARY KEY AUTOINCREMENT,
      username TEXT NOT NULL UNIQUE,
      email TEXT NOT NULL UNIQUE,
      created_at DATETIME DEFAULT CURRENT_TIMESTAMP );
>> *)
Record Row := mkRow {
  row_id : Z;
  row_username : string;
  row_email : string;
  row_created_at : Time
}.

(** The columns that carry a UNIQUE index. *)
Inductive Column := col_username | col_email.

(** The errors that [database/sql] and the driver hand to the store. *)
Inductive EngineErr :=
| ErrDBClosed                 (* sql: database is closed *)
| ErrNoRows                   (* sql.ErrNoRows *)
| ErrTxDone                   (* sql.ErrTxDone *)
| ErrCanceled                 (* context.Canceled *)
| ErrDeadlineExceeded         (* context.DeadlineExceeded *)
| ErrUnique (c : Column)      (* SQLITE_CONSTRAINT_UNIQUE *)
| ErrFull                     (* SQLITE_FULL *)
| ErrBusy                     (* SQLITE_BUSY, after busy_timeout *)
| ErrIO                       (* SQLITE_IOERR *)
| ErrCantOpen.                (* SQLITE_CANTOPEN *)

(** [err.Error()]. *)
Definition Error (e : EngineErr) : string :=
  match e with
  | ErrDBClosed => "sql: database is closed"
  | ErrNoRows => "sql: no rows in result set"
  | ErrTxDone => "sql: transaction has already been committed or rolled back"
  | ErrCanceled => "context canceled"
  | ErrDeadlineExceeded => "context deadline exceeded"
  | ErrUnique col_username => "UNIQUE constraint failed: users.username"
  | ErrUnique col_email => "UNIQUE constraint failed: users.email"
  | ErrFull => "database or disk is full"
  | ErrBusy => "database is locked"
  | ErrIO => "disk I/O error"
  | ErrCantOpen => "unable to open database file"
  end.

(** [err == sql.ErrNoRows]. *)
Definition is_ErrNoRows (e : EngineErr) : bool :=
  match e with ErrNoRows => true | _ => false end.

(** What the environment can do to a call into the engine: the context of
    the call is done, or the engine fails for a reason of its own. *)
Inductive Fault := FCanceled | FDeadline | FBusy | FIO.

Definition fault_err (f : Fault) : EngineErr :=
  match f with
  | FCanceled => ErrCanceled
  | FDeadline => ErrDeadlineExceeded
  | FBusy => ErrBusy
  | FIO => ErrIO
  end.

(** The places where the store calls into the engine. *)
Inductive Site :=
| AtPragma | AtMigrate | AtClose
| AtBeginTx | AtExec | AtLastInsertId | AtCommit
| AtQuery | AtScan | AtRowsErr | AtRowsAffected.

(** The environment of one call of a store operation: the engine's clock
    and the faults met at each site. *)
Record Env := mkEnv {
  now : Time;
  fault : Site -> option Fault
}.

(** No fault anywhere: a live context and a healthy engine. *)
Definition healthy (env : Env) : Prop := forall st, fault env st = None.

(** The state behind a [*sql.DB]: whether the handle was closed, the rows
    of [users] in rowid order, and the counter that AUTOINCREMENT keeps in
    [sqlite_sequence]. *)
Record DB := mkDB {
  closed : bool;
  table : list Row;
  seq : Z
}.

Definition set_closed (b : bool) (d : DB) : DB := mkDB b (table d) (seq d).

(** The statements the store executes, with their bound arguments. *)
Inductive Stmt :=
| InsertUser (username email : string)
    (* INSERT INTO users (username, email) VALUES (?, ?) *)
| UpdateUser (username email : string) (id : Z)
    (* UPDATE users SET username = ?, email = ? WHERE id = ? *)
| DeleteUser (id : Z).
    (* DELETE FROM users WHERE id = ? *)

(** A [sql.Result]. *)
Record Result := mkResult {
  last_insert_id : Z;
  rows_affected : Z
}.

Definition has_id (id : Z) (r : Row) : bool := row_id r =? id.
Definition has_username (u : string) (r : Row) : bool := String.eqb (row_username r) u.
Definition has_email (e : string) (r : Row) : bool := String.eqb (row_email r) e.

(** The largest rowid of the table (0 when it is empty). *)
Definition max_rowid (t : list Row) : Z :=
  fold_right (fun r m => Z.max (row_id r) m) 0 t.

(** The first UNIQUE index that a row with these values would violate,
    looking only at the rows that satisfy [others]. *)
Definition unique_violation (others : Row -> bool) (t : list Row)
           (username email : string) : option Column :=
  if existsb (fun r => others r && has_username username r) t then Some col_username
  else if existsb (fun r => others r && has_email email r) t then Some col_email
  else None.

(** AUTOINCREMENT has no id left to give: the largest rowid ever used is
    the largest rowid there is. *)
Definition exhausted (d : DB) : bool :=
  max_int64 <=? Z.max (max_rowid (table d)) (seq d).

(** One statement against the table. A statement is atomic: when it fails
    the database is as before. AUTOINCREMENT picks one more than the
    largest rowid ever used and fails with SQLITE_FULL when that is
    exhausted; the row id is chosen before the constraints are checked. *)
Definition exec_stmt (clock : Time) (d : DB) (st : Stmt) : EngineErr + (DB * Result) :=
  match st with
  | InsertUser username email =>
      if exhausted d then inl ErrFull
      else
        match unique_violation (fun _ => true) (table d) username email with
        | Some c => inl (ErrUnique c)
        | None =>
            let id := Z.max (max_rowid (table d)) (seq d) + 1 in
            inr (mkDB (closed d) (table d ++ [mkRow id username email clock]) id,
                 mkResult id 1)
        end
  | UpdateUser username email id =>
      match filter (has_id id) (table d) with
      | [] => inr (d, mkResult 0 0)
      | hit =>
          match unique_violation (fun r => negb (has_id id r)) (table d) username email with
          | Some c => inl (ErrUnique c)
          | None =>
              inr (mkDB (closed d)
                        (map (fun r => if has_id id r
                                       then mkRow (row_id r) username email (row_created_at r)
                                       else r) (table d))
                        (seq d),
                   mkResult 0 (Z.of_nat (List.length hit)))
          end
      end
  | DeleteUser id =>
      inr (mkDB (closed d) (filter (fun r => negb (has_id id r)) (table d)) (seq d),
           mkResult 0 (Z.of_nat (List.length (filter (has_id id) (table d)))))
  end.

(** Taking a connection from the handle: a closed handle is refused first,
    then the context and the engine are consulted. *)
Definition conn (env : Env) (site : Site) (d : DB) : option EngineErr :=
  if closed d then Some ErrDBClosed
  else match fault env site with
       | Some f => Some (fault_err f)
       | None => None
       end.

(** [db.ExecContext(ctx, query, args...)] outside a transaction. *)
Definition ExecContext (env : Env) (d : DB) (st : Stmt) : (EngineErr + Result) * DB :=
  match conn env AtExec d with
  | Some e => (inl e, d)
  | None =>
      match exec_stmt (now env) d st with
      | inl e => (inl e, d)
      | inr (d', res) => (inr res, d')
      end
  end.

(** A [*sql.Tx]: what to restore on rollback, and whether the transaction
    is over. *)
Record Tx := mkTx {
  tx_undo : list Row * Z;
  tx_done : bool
}.

(** [db.BeginTx(ctx, nil)]. *)
Definition BeginTx (env : Env) (d : DB) : EngineErr + Tx :=
  match conn env AtBeginTx d with
  | Some e => inl e
  | None => inr (mkTx (table d, seq d) false)
  end.

Definition restore (tx : Tx) (d : DB) : DB :=
  mkDB (closed d) (fst (tx_undo tx)) (snd (tx_undo tx)).

(** [tx.ExecContext(ctx, query, args...)]. *)
Definition TxExecContext (env : Env) (tx : Tx) (d : DB) (st : Stmt)
  : (EngineErr + Result) * DB :=
  if tx_done tx then (inl ErrTxDone, d)
  else match fault env AtExec with
       | Some f => (inl (fault_err f), d)
       | None =>
           match exec_stmt (now env) d st with
           | inl e => (inl e, d)
           | inr (d', res) => (inr res, d')
           end
       end.

(** [tx.Commit()]: when the commit fails the driver rolls the transaction
    back; either way the transaction is over. *)
Definition Commit (env : Env) (tx : Tx) (d : DB) : option EngineErr * Tx * DB :=
  if tx_done tx then (Some ErrTxDone, tx, d)
  else match fault env AtCommit with
       | Some f => (Some (fault_err f), mkTx (tx_undo tx) true, restore tx d)
       | None => (None, mkTx (tx_undo tx) true, d)
       end.

(** [tx.Rollback()]: does nothing but return [ErrTxDone] once the
    transaction is over. *)
Definition Rollback (tx : Tx) (d : DB) : option EngineErr * Tx * DB :=
  if tx_done tx then (Some ErrTxDone, tx, d)
  else (None, mkTx (tx_undo tx) true, restore tx d).

(** [result.LastInsertId()] and [result.RowsAffected()]. *)
Definition LastInsertId (env : Env) (res : Result) : EngineErr + Z :=
  match fault env AtLastInsertId with
  | Some f => inl (fault_err f)
  | None => inr (last_insert_id res)
  end.

Definition RowsAffected (env : Env) (res : Result) : EngineErr + Z :=
  match fault env AtRowsAffected with
  | Some f => inl (fault_err f)
  | None => inr (rows_affected res)
  end.

(** [db.QueryRowContext(ctx, "SELECT ... WHERE id = ?", id)] followed by
    [Scan]: the first matching row, [sql.ErrNoRows] when there is none. *)
Definition QueryRowById (env : Env) (d : DB) (id : Z) : EngineErr + Row :=
  match conn env AtQuery d with
  | Some e => inl e
  | None =>
      match find (has_id id) (table d) with
      | None => inl ErrNoRows
      | Some r =>
          match fault env AtScan with
          | Some f => inl (fault_err f)
          | None => inr r
          end
      end
  end.

(** [db.QueryContext(ctx, "SELECT ... FROM users")]: the rows to iterate. *)
Definition QueryAll (env : Env) (d : DB) : EngineErr + list Row :=
  match conn env AtQuery d with
  | Some e => inl e
  | None => inr (table d)
  end.

(** [db.Close()]. *)
Definition CloseDB (env : Env) (d : DB) : option EngineErr * DB :=
  (match fault env AtClose with
   | Some f => if closed d then None else Some (fault_err f)
   | None => None
   end, set_closed true d).

End Engine.

(* ------------------------------------------------------------------------- *)
(** ** The store: [internal/userstore] *)

Module Userstore.

Import GoStrings Engine.

(** Modelled from the spec: the [User] struct of [model.go], which is not
    among the sources; the four fields are the ones [sqlite.go] and the
    tests read and write ([ID int64], [Username], [Email] strings,
    [CreatedAt time.Time]). *)
Record User := mkUser {
  ID : Z;
  Username : string;
  Email : string;
  CreatedAt : Time
}.

Definition set_ID (id : Z) (u : User) : User :=
  mkUser id (Username u) (Email u) (CreatedAt u).

(** The values of Go's [error] that the store returns ([nil] is [None] of
    [option error]): the two sentinels of [errors.go], an engine error
    wrapped by [fmt.Errorf("...%w", err)], or an engine error as it is. *)
Inductive error :=
| ErrUserNotFound                            (* errors.New("User not found") *)
| ErrDuplicateUser                           (* errors.New("User already exists") *)
| Errorf (msg : string) (err : EngineErr)
| Plain (err : EngineErr).

(** The classes of the contract: everything that is not one of the two
    sentinels is a storage error. *)
Definition is_storage_error (e : error) : bool :=
  match e with
  | Errorf _ _ | Plain _ => true
  | ErrUserNotFound | ErrDuplicateUser => false
  end.

Record sqlStore := mkStore { db : DB }.

(** Where [dbPath] points: the in-memory database, a directory, or a file
    with the rows and the sequence it holds (a new file holds none). *)
Inductive Location :=
| Memory
| Directory
| File (rows : list Row) (sequence : Z).

Definition pragmas : list string :=
  [ "PRAGMA	journal_mode = WAL;";
    "PRAGMA synchronous = NORMAL;";
    "PRAGMA foreign_keys = ON;";
    "PRAGMA busy_timeout=5000;" ].

(** [sql.Open] followed by the first statement on the handle: this is
    when the file is opened. *)
Definition open_location (loc : Location) : EngineErr + DB :=
  match loc with
  | Memory => inr (mkDB false [] 0)
  | File rows sequence => inr (mkDB false rows sequence)
  | Directory => inl ErrCantOpen
  end.

Fixpoint apply_pragmas (env : Env) (d : EngineErr + DB) (ps : list string) : option error :=
  match ps with
  | [] => None
  | p :: ps' =>
      let err :=
        match d with
        | inl e => Some e
        | inr d => conn env AtPragma d
        end in
      match err with
      | Some e => Some (Errorf ("failed to apply pragma " ++ p ++ ": ") e)
      | None => apply_pragmas env d ps'
      end
  end.

(** [CREATE TABLE IF NOT EXISTS users (...)]: the rows of an existing
    table are kept. *)
Definition migrate (env : Env) (s : sqlStore) : option error :=
  match conn env AtMigrate (db s) with
  | Some e => Some (Plain e)
  | None => None
  end.

Definition NewDb (env : Env) (dbPath : Location) : error + sqlStore :=
  let d := open_location dbPath in
  match apply_pragmas env d pragmas with
  | Some e => inl e
  | None =>
      match d with
      | inl e => inl (Plain e)
      | inr d =>
          let s := mkStore d in
          match migrate env s with
          | Some e => inl e
          | None => inr s
          end
      end
  end.

Definition Close (env : Env) (s : sqlStore) : option error * sqlStore :=
  let '(err, d) := CloseDB env (db s) in
  (match err with Some e => Some (Plain e) | None => None end, mkStore d).

(** [Create]. The deferred [tx.Rollback()] runs at every return after
    [BeginTx] succeeded: [deferred] is that return. *)
Definition Create (env : Env) (s : sqlStore) (user : User)
  : option error * User * sqlStore :=
  match BeginTx env (db s) with
  | inl err => (Some (Errorf "Failed to begin transctions : " err), user, s)
  | inr tx =>
      let deferred (ret : option error) (user : User) (tx : Tx) (d : DB) :=
        let '(_, _, d') := Rollback tx d in (ret, user, mkStore d') in
      match TxExecContext env tx (db s) (InsertUser (Username user) (Email user)) with
      | (inl err, d) =>
          if Contains (Error err) "UNIQUE constraint failed"
          then deferred (Some ErrDuplicateUser) user tx d
          else deferred (Some (Errorf "failed to insert user: " err)) user tx d
      | (inr result, d) =>
          match LastInsertId env result with
          | inl err =>
              deferred (Some (Errorf "failed to get the last insert id : " err)) user tx d
          | inr id =>
              let user := set_ID id user in
              match Commit env tx d with
              | (Some err, tx, d) =>
                  deferred (Some (Errorf "failed to commit transaction : " err)) user tx d
              | (None, tx, d) => deferred None user tx d
              end
          end
      end
  end.

(** [rows.Scan(&u.ID, &u.Username, &u.Email, &u.CreatedAt)]. *)
Definition scan (r : Row) : User :=
  mkUser (row_id r) (row_username r) (row_email r) (row_created_at r).

Definition GetById (env : Env) (s : sqlStore) (id : Z) : error + User :=
  match QueryRowById env (db s) id with
  | inl err =>
      if is_ErrNoRows err then inl ErrUserNotFound
      else inl (Errorf "Failed to get user: " err)
  | inr r => inr (scan r)
  end.

(** The loop [for rows.Next() { ... users = append(users, u) }]. *)
Fixpoint scan_all (env : Env) (rows : list Row) (users : list User) : error + list User :=
  match rows with
  | [] => inr users
  | r :: rows' =>
      match fault env AtScan with
      | Some f => inl (Errorf "failed to scan user : " (fault_err f))
      | None => scan_all env rows' (users ++ [scan r])
      end
  end.

Definition ListAll (env : Env) (s : sqlStore) : error + list User :=
  match QueryAll env (db s) with
  | inl err => inl (Errorf "failed to list users : " err)
  | inr rows =>
      match scan_all env rows [] with
      | inl e => inl e
      | inr users =>
          match fault env AtRowsErr with
          | Some f => inl (Errorf "error during rows iteration : " (fault_err f))
          | None => inr users
          end
      end
  end.

Definition Update (env : Env) (s : sqlStore) (user : User) : option error * sqlStore :=
  match ExecContext env (db s) (UpdateUser (Username user) (Email user) (ID user)) with
  | (inl err, d) => (Some (Errorf "failed to update user : " err), mkStore d)
  | (inr result, d) =>
      match RowsAffected env result with
      | inl err => (Some (Plain err), mkStore d)
      | inr count =>
          if count =? 0 then (Some ErrUserNotFound, mkStore d)
          else (None, mkStore d)
      end
  end.

Definition Delete (env : Env) (s : sqlStore) (id : Z) : option error * sqlStore :=
  match ExecContext env (db s) (DeleteUser id) with
  | (inl err, d) => (Some (Errorf "failed to delete user : " err), mkStore d)
  | (inr result, d) =>
      match RowsAffected env result with
      | inl err => (Some (Plain err), mkStore d)
      | inr count =>
          if count =? 0 then (Some ErrUserNotFound, mkStore d)
          else (None, mkStore d)
      end
  end.

End Userstore.

(* ------------------------------------------------------------------------- *)
(** ** Reachable stores *)

Module Reach.

Import Engine Userstore.

(** The ids handed out so far, the latest first. *)
Definition History := list Z.

Definition record_create (err : option error) (user : User) (h : History) : History :=
  match err with
  | None => ID user :: h
  | Some _ => h
  end.

(** A store is reachable when it was opened on a new location (the
    in-memory database or a file that did not exist) and then driven by
    the operations of the contract, possibly closed and opened again on
    what it had written. The index is the history of the ids that the
    successful calls of [Create] assigned. *)
Inductive reachable : History -> sqlStore -> Prop :=
| reach_memory env s :
    NewDb env Memory = inr s -> reachable [] s
| reach_new_file env s :
    NewDb env (File [] 0) = inr s -> reachable [] s
| reach_reopen h s env s' :
    reachable h s ->
    NewDb env (File (table (db s)) (seq (db s))) = inr s' ->
    reachable h s'
| reach_Create h s env user err user' s' :
    reachable h s ->
    Create env s user = (err, user', s') ->
    reachable (record_create err user' h) s'
| reach_Update h s env user err s' :
    reachable h s ->
    Update env s user = (err, s') ->
    reachable h s'
| reach_Delete h s env id err s' :
    reachable h s ->
    Delete env s id = (err, s') ->
    reachable h s'
| reach_Close h s env err s' :
    reachable h s ->
    Close env s = (err, s') ->
    reachable h s'.

(** What the schema and AUTOINCREMENT maintain. *)
Record Inv (h : History) (d : DB) : Prop := mkInv {
  inv_ids : NoDup (map row_id (table d));
  inv_usernames : NoDup (map row_username (table d));
  inv_emails : NoDup (map row_email (table d));
  inv_rows : Forall (fun r => 0 < row_id r <= seq d) (table d);
  inv_history : Forall (fun i => 0 < i <= seq d) h;
  inv_seq : 0 <= seq d <= max_int64
}.

(** A call of one of the five operations, and its outcome as an error
    value. *)
Inductive Call :=
| CallCreate (env : Env) (user : User)
| CallGetById (env : Env) (id : Z)
| CallListAll (env : Env)
| CallUpdate (env : Env) (user : User)
| CallDelete (env : Env) (id : Z).

Definition err_of {A : Type} (r : error + A) : option error :=
  match r with
  | inl e => Some e
  | inr _ => None
  end.

Definition call (s : sqlStore) (c : Call) : option error * sqlStore :=
  match c with
  | CallCreate env user => let '(err, _, s') := Create env s user in (err, s')
  | CallGetById env id => (err_of (GetById env s id), s)
  | CallListAll env => (err_of (ListAll env s), s)
  | CallUpdate env user => Update env s user
  | CallDelete env id => Delete env s id
  end.

(** A sequence of calls: the outcomes in order, and the final store. *)
Fixpoint calls (s : sqlStore) (cs : list Call) : list (option error) * sqlStore :=
  match cs with
  | [] => ([], s)
  | c :: cs' =>
      let '(err, s1) := call s c in
      let '(errs, s2) := calls s1 cs' in
      (err :: errs, s2)
  end.

(** Whether a call writes to the row [id]. *)
Definition writes_to (id : Z) (c : Call) : bool :=
  match c with
  | CallUpdate _ user => ID user =? id
  | CallDelete _ id' => id' =? id
  | _ => false
  end.

Definition is_delete (c : Call) : bool :=
  match c with
  | CallDelete _ _ => true
  | _ => false
  end.

(** The number of calls of [Create] that succeeded among the outcomes of
    a sequence of calls. *)
Fixpoint created (cs : list Call) (errs : list (option error)) : nat :=
  match cs, errs with
  | CallCreate _ _ :: cs', None :: errs' => S (created cs' errs')
  | _ :: cs', _ :: errs' => created cs' errs'
  | _, _ => O
  end.

(** How [Update] and [Delete] turn the outcome of their statement into
    their result. *)
Definition affected_outcome (env : Env) (res : Result) : option error :=
  match fault env AtRowsAffected with
  | Some f => Some (Plain (fault_err f))
  | None => if rows_affected res =? 0 then Some ErrUserNotFound else None
  end.

(** The table after [UPDATE users SET username = ?, email = ? WHERE id = ?]
    has gone through with the fields of [user]. *)
Definition overwritten (user : User) (t : list Row) : list Row :=
  map (fun r => if row_id r =? ID user
                then mkRow (row_id r) (Username user) (Email user) (row_created_at r)
                else r) t.

(** Username and email are each held by at most one row. *)
Definition unique_fields (d : DB) : Prop :=
  NoDup (map row_username (table d)) /\ NoDup (map row_email (table d)).

(** No row has an empty username or an empty email. *)
Definition nonempty_fields (d : DB) : Prop :=
  Forall (fun r => row_username r <> "" /\ row_email r <> "") (table d).

End Reach.

(* ------------------------------------------------------------------------- *)
(** ** The data of the scenario of the contract *)

Module Scenario.

Import Engine Userstore.

(** A healthy environment, the clock at a second of November 2025. *)
Definition env0 : Env := mkEnv 63900000000 (fun _ => None).

(** The store that [NewDb(":memory:")] returns. *)
Definition store0 : sqlStore := mkStore (mkDB false [] 0).

Definition alice : User := mkUser 0 "alice" "alice@x.com" 0.
Definition alice2 : User := mkUser 0 "alice" "other@x.com" 0.
Definition bob : User := mkUser 0 "bob" "bob@x.com" 0.

Definition store1 : sqlStore :=
  mkStore (mkDB false [mkRow 1 "alice" "alice@x.com" 63900000000] 1).

Definition store2 : sqlStore :=
  mkStore (mkDB false [mkRow 1 "alice" "alice@x.com" 63900000000;
                       mkRow 2 "bob" "bob@x.com" 63900000000] 2).

End Scenario.

(* ------------------------------------------------------------------------- *)
(** ** The interactive shell: [cmd/main.go] *)

Module Shell.

Import Engine Userstore.

(** The values handed to [fmt]. *)
Inductive Arg :=
| ArgInt (n : Z)
| ArgString (s : string)
| ArgTime (t : Time)
| ArgError (e : error).

(** The calls of [fmt.Print], [fmt.Println] and [fmt.Printf], in the order
    they were made: the standard output, before rendering. *)
Inductive Output :=
| Print (args : list Arg)
| Println (args : list Arg)
| Printf (format : string) (args : list Arg).

(** A [bufio.Scanner] on the standard input: the token of the last [Scan]
    and the lines still to come. At the end of the input [Scan] returns
    [false] and leaves the empty token. *)
Record Scanner := mkScanner {
  token : string;
  lines : list string
}.

Definition Scan (sc : Scanner) : bool * Scanner :=
  match lines sc with
  | [] => (false, mkScanner "" [])
  | l :: rest => (true, mkScanner l rest)
  end.

Definition Text (sc : Scanner) : string := token sc.

(** What [main] acts on: the scanner, the output so far, the store. *)
Record World := mkWorld {
  stdin : Scanner;
  stdout : list Output;
  store : sqlStore
}.

(** Statements of [main] are state transformers of the world. *)
Definition M (A : Type) : Type := World -> A * World.

Definition ret {A : Type} (a : A) : M A := fun w => (a, w).

Definition bind {A B : Type} (m : M A) (k : A -> M B) : M B :=
  fun w => let '(a, w') := m w in k a w'.

Declare Scope shell_scope.
Delimit Scope shell_scope with shell.
Notation "x <- m ;; k" := (bind m (fun x => k))
  (at level 61, m at next level, right associativity) : shell_scope.
Notation "m ;; k" := (bind m (fun _ => k))
  (at level 61, right associativity) : shell_scope.
Local Open Scope shell_scope.

Definition emit (o : Output) : M unit :=
  fun w => (tt, mkWorld (stdin w) (stdout w ++ [o]) (store w)).

Definition print (args : list Arg) : M unit := emit (Print args).
Definition println (args : list Arg) : M unit := emit (Println args).
Definition printf (format : string) (args : list Arg) : M unit := emit (Printf format args).

Definition scan : M bool :=
  fun w => (fst (Scan (stdin w)), mkWorld (snd (Scan (stdin w))) (stdout w) (store w)).

Definition text : M string := fun w => (Text (stdin w), w).

(** The calls into the store; [create] returns the error and the record
    as [Create] left it. *)
Definition create (env : Env) (u : User) : M (option error * User) :=
  fun w => (fst (Create env (store w) u),
            mkWorld (stdin w) (stdout w) (snd (Create env (store w) u))).

Definition getById (env : Env) (id : Z) : M (error + User) :=
  fun w => (GetById env (store w) id, w).

Definition listAll (env : Env) : M (error + list User) :=
  fun w => (ListAll env (store w), w).

Definition update (env : Env) (u : User) : M (option error) :=
  fun w => (fst (Update env (store w) u),
            mkWorld (stdin w) (stdout w) (snd (Update env (store w) u))).

Definition delete (env : Env) (id : Z) : M (option error) :=
  fun w => (fst (Delete env (store w) id),
            mkWorld (stdin w) (stdout w) (snd (Delete env (store w) id))).

Definition set_Username (name : string) (u : User) : User :=
  mkUser (ID u) name (Email u) (CreatedAt u).

Definition set_Email (email : string) (u : User) : User :=
  mkUser (ID u) (Username u) email (CreatedAt u).

(** The line feed of the Go string literals. *)
Definition LF : string := String (ascii_of_nat 10) EmptyString.

(** The line that the listing prints for a user. *)
Definition user_line (u : User) : Output :=
  Printf ("%-3d  |  %-10s  |  %s  |  %v  " ++ LF)
         [ArgInt (ID u); ArgString (Username u); ArgString (Email u);
          ArgTime (CreatedAt u)].

Section Main.

(** [strings.TrimSpace], and [strconv.ParseInt] with [None] for a non-nil
    error: the shell is the same whatever they compute. *)
Variable TrimSpace : string -> string.
Variable ParseInt : string -> Z -> Z -> option Z.

Definition readLine (prompt : string) : M string :=
  print [ArgString prompt] ;;
  _ <- scan ;;
  t <- text ;;
  ret (TrimSpace t).

(** The loop [for _, u := range users] of the listing. *)
Fixpoint print_users (users : list User) : M unit :=
  match users with
  | [] => ret tt
  | u :: users' =>
      printf ("%-3d  |  %-10s  |  %s  |  %v  " ++ LF)
             [ArgInt (ID u); ArgString (Username u); ArgString (Email u);
              ArgTime (CreatedAt u)] ;;
      print_users users'
  end.

(** One turn of the loop of [main]; the boolean says whether [main]
    returns. The context of the calls is [context.Background()], and the
    calls of one turn meet the engine at different sites, so that one
    environment serves the turn. *)
Definition iteration (env : Env) : M bool :=
  println [ArgString (LF ++ "--- User Management System ---")] ;;
  println [ArgString "1. Create User"] ;;
  println [ArgString "2. List All Users"] ;;
  println [ArgString "3. Update User"] ;;
  println [ArgString "4. Delete User"] ;;
  println [ArgString "5. Exit"] ;;
  println [ArgString "Select an option: "] ;;
  _ <- scan ;;
  choice <- text ;;
  if String.eqb choice "1" then
    uname <- readLine "Enter Username: " ;;
    email <- readLine "Enter Email: " ;;
    if String.eqb uname "" || String.eqb email "" then
      println [ArgString "username and email are required"] ;;
      ret false
    else
      r <- create env (mkUser 0 uname email 0) ;;
      match fst r with
      | Some err => printf ("Error %v" ++ LF) [ArgError err] ;; ret false
      | None => println [ArgString "User Created!"] ;; ret false
      end
  else if String.eqb choice "2" then
    r <- listAll env ;;
    match r with
    | inl err =>
        println [ArgString "failed to list users:"; ArgError err] ;;
        ret false
    | inr users =>
        println [ArgString (LF ++ "  ID  |  Username  |  Email  | Created at  ")] ;;
        print_users users ;;
        ret false
    end
  else if String.eqb choice "3" then
    idStr <- readLine "Enter user ID: " ;;
    match ParseInt idStr 10 64 with
    | None => println [ArgString "invalid id"] ;; ret false
    | Some id =>
        r <- getById env id ;;
        match r with
        | inl _ => println [ArgString "User not found"] ;; ret false
        | inr u =>
            newU <- readLine ("Username [" ++ Username u ++ "]: ") ;;
            let u := if String.eqb newU "" then u else set_Username newU u in
            newE <- readLine ("Email [" ++ Email u ++ "]: ") ;;
            let u := if String.eqb newE "" then u else set_Email newE u in
            err <- update env u ;;
            match err with
            | Some err => printf ("Update failed: %v" ++ LF) [ArgError err] ;; ret false
            | None => println [ArgString "Updated successfully!"] ;; ret false
            end
        end
    end
  else if String.eqb choice "4" then
    idStr <- readLine "Enter a user ID to delete: " ;;
    match ParseInt idStr 10 64 with
    | None => println [ArgString "Invalid ID format"] ;; ret false
    | Some id =>
        r <- getById env id ;;
        match r with
        | inl _ => println [ArgString "User not found"] ;; ret false
        | inr u =>
            confirm <- readLine "Are you sure you want to delete? (y/n): " ;;
            if negb (String.eqb confirm "y") then ret false
            else
              err <- delete env (ID u) ;;
              match err with
              | Some _ => println [ArgString "Delete failed"] ;; ret false
              | None => println [ArgString "User deleted successfuly"] ;; ret false
              end
        end
    end
  else if String.eqb choice "5" then
    println [ArgString "Exiting program..."] ;;
    ret true
  else ret false.

(** The loop [for { ... }], for as many turns as there are environments:
    [true] when [main] has returned, [false] when it is still looping. *)
Fixpoint loop (envs : list Env) : M bool :=
  match envs with
  | [] => ret false
  | env :: envs' =>
      done <- iteration env ;;
      if done then ret true else loop envs'
  end.

(** How a run of [main] stands: [log.Fatal] after a failed [NewDb], the
    return after the choice 5, with the deferred [store.Close()] done, or
    the loop still going. *)
Inductive Run :=
| Fatal (err : error)
| Returned (out : list Output) (closed_store : sqlStore)
| Looping (w : World).

Definition main (env_open : Env) (envs : list Env) (env_close : Env)
           (users_db : Location) (input : list string) : Run :=
  match NewDb env_open users_db with
  | inl err => Fatal err
  | inr s =>
      let r := loop envs (mkWorld (mkScanner "" input) [] s) in
      if fst r
      then Returned (stdout (snd r)) (snd (Close env_close (store (snd r))))
      else Looping (snd r)
  end.

End Main.

End Shell.

(* ------------------------------------------------------------------------- *)
(** ** Facts about the engine *)

Import GoStrings Engine Userstore Reach.

(** Splits on the scrutinee of a [match] or [if] of the goal or of a
    hypothesis, keeping the equation. *)
Ltac split_match :=
  match goal with
  | |- context [match ?x with _ => _ end] => destruct x eqn:?
  | H : context [match ?x with _ => _ end] |- _ => destruct x eqn:?
  end.

Section EngineFacts.

(** The test of [Create] on the text of the error picks exactly the
    violations of a UNIQUE index. *)
Lemma Contains_unique (e : EngineErr) :
  Contains (Error e) "UNIQUE constraint failed" = true <-> exists c, e = ErrUnique c.
Proof.
  split.
  - destruct e; try (vm_compute; discriminate); eauto.
  - intros [c ->]. destruct c; reflexivity.
Qed.

Lemma Contains_fault (f : Fault) :
  Contains (Error (fault_err f)) "UNIQUE constraint failed" = false.
Proof. destruct f; reflexivity. Qed.

Lemma is_ErrNoRows_fault (f : Fault) : is_ErrNoRows (fault_err f) = false.
Proof. destruct f; reflexivity. Qed.

Lemma has_id_true id r : has_id id r = true <-> row_id r = id.
Proof. unfold has_id. apply Z.eqb_eq. Qed.

Lemma has_id_false id r : has_id id r = false <-> row_id r <> id.
Proof. unfold has_id. apply Z.eqb_neq. Qed.

Lemma has_username_true u r : has_username u r = true <-> row_username r = u.
Proof. unfold has_username. apply String.eqb_eq. Qed.

Lemma has_email_true e r : has_email e r = true <-> row_email r = e.
Proof. unfold has_email. apply String.eqb_eq. Qed.

Lemma existsb_false {A} (f : A -> bool) (l : list A) :
  existsb f l = false <-> forall x, In x l -> f x = false.
Proof.
  split.
  - intros H x Hx. destruct (f x) eqn:E; [|reflexivity].
    rewrite <- H. symmetry. apply existsb_exists. eauto.
  - intros H. destruct (existsb f l) eqn:E; [|reflexivity].
    apply existsb_exists in E. destruct E as [x [Hx Hf]].
    rewrite (H x Hx) in Hf. discriminate.
Qed.

(** No violation: no row among the others carries the username or the
    email. *)
Lemma unique_violation_None others t u e :
  unique_violation others t u e = None <->
  forall r, In r t -> others r = true -> row_username r <> u /\ row_email r <> e.
Proof.
  unfold unique_violation. split.
  - intros H r Hr Ho.
    destruct (existsb (fun r => others r && has_username u r) t) eqn:E1; [discriminate|].
    destruct (existsb (fun r => others r && has_email e r) t) eqn:E2; [discriminate|].
    rewrite existsb_false in E1, E2.
    specialize (E1 r Hr). specialize (E2 r Hr). simpl in E1, E2.
    rewrite Ho in E1, E2. simpl in E1, E2. split; intro C.
    + apply has_username_true in C. congruence.
    + apply has_email_true in C. congruence.
  - intros H.
    assert (E1 : existsb (fun r => others r && has_username u r) t = false).
    { apply existsb_false. intros r Hr. destruct (others r) eqn:Ho; [|reflexivity].
      simpl. destruct (has_username u r) eqn:Hu; [|reflexivity].
      apply has_username_true in Hu. destruct (H r Hr Ho). contradiction. }
    assert (E2 : existsb (fun r => others r && has_email e r) t = false).
    { apply existsb_false. intros r Hr. destruct (others r) eqn:Ho; [|reflexivity].
      simpl. destruct (has_email e r) eqn:Hu; [|reflexivity].
      apply has_email_true in Hu. destruct (H r Hr Ho). contradiction. }
    rewrite E1, E2. reflexivity.
Qed.

(** A violation: some row among the others carries the username or the
    email. *)
Lemma unique_violation_Some others t u e :
  (exists r, In r t /\ others r = true /\ (row_username r = u \/ row_email r = e)) ->
  exists c, unique_violation others t u e = Some c.
Proof.
  intros [r [Hr [Ho Hc]]].
  destruct (unique_violation others t u e) eqn:E; [eauto|].
  rewrite unique_violation_None in E. destruct (E r Hr Ho). tauto.
Qed.

Lemma unique_violation_row others t u e c :
  unique_violation others t u e = Some c ->
  exists r, In r t /\ others r = true /\ (row_username r = u \/ row_email r = e).
Proof.
  unfold unique_violation.
  destruct (existsb (fun r => others r && has_username u r) t) eqn:E1.
  - intros _. apply existsb_exists in E1. destruct E1 as [r [Hr H]].
    apply andb_true_iff in H. destruct H as [Ho Hu]. apply has_username_true in Hu. eauto.
  - destruct (existsb (fun r => others r && has_email e r) t) eqn:E2; [|discriminate].
    intros _. apply existsb_exists in E2. destruct E2 as [r [Hr H]].
    apply andb_true_iff in H. destruct H as [Ho Hu]. apply has_email_true in Hu. eauto.
Qed.

Lemma max_rowid_le t b :
  0 <= b -> Forall (fun r => row_id r <= b) t -> max_rowid t <= b.
Proof.
  intros Hb H. induction H; simpl; lia.
Qed.

(** The INSERT, as an equivalence. *)
Lemma exec_insert_inr clock d u e d' res :
  exec_stmt clock d (InsertUser u e) = inr (d', res) <->
  let id := Z.max (max_rowid (table d)) (seq d) + 1 in
  exhausted d = false /\
  unique_violation (fun _ => true) (table d) u e = None /\
  d' = mkDB (closed d) (table d ++ [mkRow id u e clock]) id /\
  res = mkResult id 1.
Proof.
  simpl. destruct (exhausted d) eqn:E.
  - split; [discriminate|]. intros [H _]. discriminate.
  - destruct (unique_violation (fun _ => true) (table d) u e) eqn:V.
    + split; [discriminate|]. intros [_ [H _]]. discriminate.
    + split.
      * intros H. inversion H; subst. repeat split.
      * intros [_ [_ [-> ->]]]. reflexivity.
Qed.

Lemma exhausted_false d :
  exhausted d = false <-> Z.max (max_rowid (table d)) (seq d) < max_int64.
Proof. unfold exhausted. apply Z.leb_gt. Qed.

(** An INSERT fails only with SQLITE_FULL or on a UNIQUE index. *)
Lemma exec_insert_inl clock d u e err :
  exec_stmt clock d (InsertUser u e) = inl err ->
  err = ErrFull \/ exists c, err = ErrUnique c.
Proof.
  simpl. repeat split_match; intros H; inversion H; eauto.
Qed.

End EngineFacts.

(* ------------------------------------------------------------------------- *)
(** ** Lists of rows and their columns *)

Section Columns.

Context {B : Type}.
Variable col : Row -> B.

Lemma NoDup_map_snoc (t : list Row) (r : Row) :
  NoDup (map col t) -> ~ In (col r) (map col t) -> NoDup (map col (t ++ [r])).
Proof.
  intros Hnd Hnin. rewrite map_app. simpl.
  induction (map col t) as [|b l IH]; simpl.
  - constructor; [intros []|constructor].
  - inversion Hnd; subst. constructor.
    + rewrite in_app_iff. simpl. intros [H|[H|[]]]; [contradiction|].
      apply Hnin. left. congruence.
    + apply IH; [assumption|]. intros H. apply Hnin. right. exact H.
Qed.

Lemma NoDup_map_filter (p : Row -> bool) (t : list Row) :
  NoDup (map col t) -> NoDup (map col (filter p t)).
Proof.
  induction t as [|r t IH]; simpl; intros H; [constructor|].
  inversion H; subst. destruct (p r); simpl; [constructor|]; auto.
  intros Hin. apply H2. apply in_map_iff in Hin. destruct Hin as [x [Hx Hin]].
  apply filter_In in Hin. apply in_map_iff. exists x. tauto.
Qed.

(** Overwriting the column with [v] on the rows [id], when no other row
    holds [v], keeps the column free of duplicates. *)
Lemma NoDup_map_overwrite (g : Row -> Row) (id : Z) (v : B) (t : list Row) :
  (forall r, col (g r) = v) ->
  NoDup (map row_id t) ->
  NoDup (map col t) ->
  (forall r, In r t -> has_id id r = false -> col r <> v) ->
  NoDup (map col (map (fun r => if has_id id r then g r else r) t)).
Proof.
  intros Hg. induction t as [|r t IH]; simpl; intros Hid Hcol Hoth; [constructor|].
  inversion Hid; subst. inversion Hcol; subst.
  constructor.
  - rewrite map_map. intros Hin. apply in_map_iff in Hin.
    destruct Hin as [r' [Heq Hr']].
    destruct (has_id id r) eqn:Er; destruct (has_id id r') eqn:Er'.
    + apply has_id_true in Er, Er'. apply H1. apply in_map_iff.
      exists r'. split; [congruence|assumption].
    + rewrite Hg in Heq. apply (Hoth r'); auto.
    + rewrite Hg in Heq. apply (Hoth r); auto.
    + apply H3. apply in_map_iff. exists r'. auto.
  - apply IH; auto.
Qed.

End Columns.

Section Invariant.

Lemma map_row_id_overwrite (g : Row -> Row) (id : Z) (t : list Row) :
  (forall r, row_id (g r) = row_id r) ->
  map row_id (map (fun r => if has_id id r then g r else r) t) = map row_id t.
Proof.
  intros Hg. rewrite map_map. apply map_ext. intros r.
  destruct (has_id id r); auto.
Qed.

(** The invariant speaks of the table and of the sequence only. *)
Lemma Inv_ext h d d' :
  table d' = table d -> seq d' = seq d -> Inv h d -> Inv h d'.
Proof.
  intros Ht Hs [H1 H2 H3 H4 H5 H6].
  constructor; rewrite ?Ht, ?Hs; assumption.
Qed.

Lemma Inv_max h d : Inv h d -> Z.max (max_rowid (table d)) (seq d) = seq d.
Proof.
  intros [_ _ _ Hrows _ Hseq]. apply Z.max_r.
  apply max_rowid_le; [lia|].
  eapply Forall_impl; [|exact Hrows]. simpl. intros; lia.
Qed.

Lemma Inv_empty : Inv [] (mkDB false [] 0).
Proof.
  constructor; simpl; try constructor; unfold max_int64; lia.
Qed.

(** An INSERT that goes through assigns the id after the sequence and
    keeps the invariant, the new id recorded. *)
Lemma Inv_insert h clock d u e d' res :
  Inv h d ->
  exec_stmt clock d (InsertUser u e) = inr (d', res) ->
  last_insert_id res = seq d + 1 /\
  seq d' = seq d + 1 /\
  table d' = (table d ++ [mkRow (seq d + 1) u e clock])%list /\
  closed d' = closed d /\
  Inv (last_insert_id res :: h) d'.
Proof.
  intros HI H. apply exec_insert_inr in H. simpl in H.
  rewrite (Inv_max h d HI) in H. destruct H as [Hmax [Hv [-> ->]]]. simpl.
  apply exhausted_false in Hmax. rewrite (Inv_max h d HI) in Hmax.
  do 4 (split; [reflexivity|]).
  destruct HI as [H1 H2 H3 H4 H5 H6].
  rewrite unique_violation_None in Hv.
  constructor; simpl.
  - apply NoDup_map_snoc; [assumption|]. simpl. intros Hin.
    apply in_map_iff in Hin. destruct Hin as [r [Heq Hr]].
    rewrite Forall_forall in H4. specialize (H4 r Hr). lia.
  - apply NoDup_map_snoc; [assumption|]. simpl. intros Hin.
    apply in_map_iff in Hin. destruct Hin as [r [Heq Hr]].
    destruct (Hv r Hr eq_refl). contradiction.
  - apply NoDup_map_snoc; [assumption|]. simpl. intros Hin.
    apply in_map_iff in Hin. destruct Hin as [r [Heq Hr]].
    destruct (Hv r Hr eq_refl). contradiction.
  - apply Forall_app. split.
    + eapply Forall_impl; [|exact H4]. simpl. intros; lia.
    + constructor; [simpl; lia|constructor].
  - constructor; [lia|]. eapply Forall_impl; [|exact H5]. simpl. intros; lia.
  - lia.
Qed.

(** UPDATE and DELETE keep the invariant and the sequence. *)
Lemma Inv_update h clock d u e id d' res :
  Inv h d ->
  exec_stmt clock d (UpdateUser u e id) = inr (d', res) ->
  Inv h d' /\ seq d' = seq d /\ closed d' = closed d.
Proof.
  intros HI H. simpl in H.
  destruct (filter (has_id id) (table d)) eqn:F.
  { inversion H; subst. auto. }
  destruct (unique_violation (fun r => negb (has_id id r)) (table d) u e) eqn:V;
    [discriminate|].
  inversion H; subst; clear H. simpl. split; [|split; reflexivity].
  rewrite unique_violation_None in V.
  destruct HI as [H1 H2 H3 H4 H5 H6].
  constructor; simpl; auto.
  - rewrite map_row_id_overwrite; auto.
  - apply NoDup_map_overwrite
      with (g := fun r => mkRow (row_id r) u e (row_created_at r)) (v := u); auto.
    intros r' Hr' Hid. apply (V r' Hr'). rewrite Hid. reflexivity.
  - apply NoDup_map_overwrite
      with (g := fun r => mkRow (row_id r) u e (row_created_at r)) (v := e); auto.
    intros r' Hr' Hid. apply (V r' Hr'). rewrite Hid. reflexivity.
  - rewrite Forall_forall in *. intros r' Hr'. apply in_map_iff in Hr'.
    destruct Hr' as [x [<- Hx]]. specialize (H4 x Hx).
    destruct (has_id id x); simpl; lia.
Qed.

Lemma Inv_delete h clock d id d' res :
  Inv h d ->
  exec_stmt clock d (DeleteUser id) = inr (d', res) ->
  Inv h d' /\ seq d' = seq d /\ closed d' = closed d.
Proof.
  intros [H1 H2 H3 H4 H5 H6] H. simpl in H. inversion H; subst; clear H. simpl.
  split; [|split; reflexivity].
  constructor; simpl; auto; try (apply NoDup_map_filter; assumption).
  rewrite Forall_forall in *. intros r Hr. apply filter_In in Hr. apply H4. tauto.
Qed.

End Invariant.

(* ------------------------------------------------------------------------- *)
(** ** The operations, case by case *)

#[local] Arguments exec_stmt : simpl never.

Section StoreFacts.

Variable env : Env.

Lemma conn_None site d :
  conn env site d = None <-> closed d = false /\ fault env site = None.
Proof.
  unfold conn. destruct (closed d); destruct (fault env site);
    split; intros H; try discriminate; auto; destruct H; discriminate.
Qed.

Lemma conn_closed site d : closed d = true -> conn env site d = Some ErrDBClosed.
Proof. unfold conn. intros ->. reflexivity. Qed.

Lemma conn_healthy site d :
  healthy env -> closed d = false -> conn env site d = None.
Proof. intros H Hc. apply conn_None. auto. Qed.

Lemma store_eta (s : sqlStore) :
  mkStore (mkDB (closed (db s)) (table (db s)) (seq (db s))) = s.
Proof. destruct s as [[c t q]]. reflexivity. Qed.

Lemma exec_stmt_closed clock d st d' res :
  exec_stmt clock d st = inr (d', res) -> closed d' = closed d.
Proof.
  destruct st; unfold exec_stmt; repeat split_match; intros H; inversion H; subst;
    reflexivity.
Qed.

(** [Create], read backwards: a success went through [BeginTx], the
    INSERT, [LastInsertId] and [Commit], left the database of the INSERT
    and wrote the new id, and nothing else, on the record; a failure left
    the store as it was. *)
Lemma Create_spec (s : sqlStore) (user : User) :
  match Create env s user with
  | (None, user', s') =>
      conn env AtBeginTx (db s) = None /\
      fault env AtLastInsertId = None /\
      fault env AtCommit = None /\
      exists res,
        exec_stmt (now env) (db s) (InsertUser (Username user) (Email user))
        = inr (db s', res) /\
        user' = set_ID (last_insert_id res) user
  | (Some _, _, s') => s' = s
  end.
Proof.
  unfold Create, BeginTx.
  destruct (conn env AtBeginTx (db s)) eqn:Hc; [reflexivity|].
  unfold TxExecContext, LastInsertId, Commit, Rollback, restore. simpl.
  destruct (fault env AtExec); simpl.
  { rewrite Contains_fault. simpl. apply store_eta. }
  destruct (exec_stmt (now env) (db s) (InsertUser (Username user) (Email user)))
    as [err|[d' res]] eqn:Hx.
  { destruct (Contains (Error err) "UNIQUE constraint failed"); simpl; apply store_eta. }
  pose proof (exec_stmt_closed _ _ _ _ _ Hx) as Hcl.
  destruct (fault env AtLastInsertId); simpl.
  { rewrite Hcl. apply store_eta. }
  destruct (fault env AtCommit); simpl.
  { rewrite Hcl. apply store_eta. }
  do 3 (split; [reflexivity|]). exists res. auto.
Qed.

(** The caller's record after [Create]: only [ID] can differ, and it does
    only once the INSERT and [LastInsertId] have succeeded. *)
Lemma Create_user (s : sqlStore) (user : User) :
  match Create env s user with
  | (err, user', _) =>
      Username user' = Username user /\
      Email user' = Email user /\
      CreatedAt user' = CreatedAt user /\
      (err = Some ErrDuplicateUser -> user' = user)
  end.
Proof.
  unfold Create, BeginTx.
  destruct (conn env AtBeginTx (db s)) eqn:Hc; [repeat split; discriminate|].
  unfold TxExecContext, LastInsertId, Commit, Rollback, restore. simpl.
  destruct (fault env AtExec); simpl.
  { rewrite Contains_fault. simpl. repeat split; discriminate. }
  destruct (exec_stmt (now env) (db s) (InsertUser (Username user) (Email user)))
    as [err|[d' res]] eqn:Hx.
  { destruct (Contains (Error err) "UNIQUE constraint failed"); simpl; repeat split;
      discriminate. }
  destruct (fault env AtLastInsertId); simpl.
  { repeat split; discriminate. }
  destruct (fault env AtCommit); simpl; repeat split; discriminate.
Qed.

(** [Create] returns [ErrDuplicateUser] only when a stored row holds the
    username or the email: no other failure of the engine has the text
    that [Create] looks for. *)
Lemma Create_duplicate_collision (s : sqlStore) (user user' : User) (s' : sqlStore) :
  Create env s user = (Some ErrDuplicateUser, user', s') ->
  exists r, In r (table (db s)) /\
            (row_username r = Username user \/ row_email r = Email user).
Proof.
  unfold Create, BeginTx.
  destruct (conn env AtBeginTx (db s)); [discriminate|].
  unfold TxExecContext, LastInsertId, Commit, Rollback, restore. simpl.
  destruct (fault env AtExec); simpl.
  { rewrite Contains_fault. simpl. discriminate. }
  destruct (exec_stmt (now env) (db s) (InsertUser (Username user) (Email user)))
    as [err|[d' res]] eqn:Hx.
  - destruct (Contains (Error err) "UNIQUE constraint failed") eqn:HC; [|discriminate].
    intros _. apply Contains_unique in HC. destruct HC as [c ->].
    unfold exec_stmt in Hx. destruct (exhausted (db s)); [discriminate|].
    destruct (unique_violation (fun _ => true) (table (db s)) (Username user) (Email user))
      as [c'|] eqn:V; [|discriminate].
    apply unique_violation_row in V. destruct V as [r [Hr [_ Hc]]]. eauto.
  - destruct (fault env AtLastInsertId); simpl; [discriminate|].
    destruct (fault env AtCommit); simpl; discriminate.
Qed.

(** [Create] on an open store in a healthy environment is the INSERT. *)
Lemma Create_healthy (s : sqlStore) (user : User) :
  healthy env -> closed (db s) = false ->
  Create env s user =
  match exec_stmt (now env) (db s) (InsertUser (Username user) (Email user)) with
  | inl ErrFull => (Some (Errorf "failed to insert user: " ErrFull), user, s)
  | inl _ => (Some ErrDuplicateUser, user, s)
  | inr (d', res) => (None, set_ID (last_insert_id res) user, mkStore d')
  end.
Proof.
  intros Hh Hc. unfold Create, BeginTx. rewrite conn_healthy by assumption.
  unfold TxExecContext, LastInsertId, Commit, Rollback, restore. simpl.
  rewrite !Hh.
  destruct (exec_stmt (now env) (db s) (InsertUser (Username user) (Email user)))
    as [err|[d' res]] eqn:Hx.
  - destruct (exec_insert_inl _ _ _ _ _ Hx) as [->|[c ->]].
    + simpl. rewrite store_eta. reflexivity.
    + destruct c; simpl; rewrite store_eta; reflexivity.
  - reflexivity.
Qed.

Lemma store_db_eta (s : sqlStore) : mkStore (db s) = s.
Proof. destruct s. reflexivity. Qed.

End StoreFacts.

Section WriteFacts.

Variable env : Env.

Ltac write_cases H s st :=
  let Hc := fresh "Hc" in
  let Hx := fresh "Hx" in
  unfold ExecContext, RowsAffected, affected_outcome in *;
  destruct (conn env AtExec (db s)) eqn:Hc;
  [ inversion H; subst; left; eexists; rewrite store_db_eta; eauto
  | destruct (exec_stmt (now env) (db s) st) as [?e|[?d ?res]] eqn:Hx;
    [ inversion H; subst; left; eexists; rewrite store_db_eta; eauto
    | right; exists res; split; [reflexivity|];
      destruct (fault env AtRowsAffected);
      [ inversion H; subst; auto
      | destruct (rows_affected res =? 0); inversion H; subst; auto ] ] ].

Lemma Update_cases (s : sqlStore) (user : User) err s' :
  Update env s user = (err, s') ->
  (exists e, err = Some (Errorf "failed to update user : " e) /\ s' = s /\
             (conn env AtExec (db s) = Some e \/
              conn env AtExec (db s) = None /\
              exec_stmt (now env) (db s)
                        (UpdateUser (Username user) (Email user) (ID user)) = inl e))
  \/
  (exists res, conn env AtExec (db s) = None /\
               exec_stmt (now env) (db s)
                         (UpdateUser (Username user) (Email user) (ID user))
               = inr (db s', res) /\
               err = affected_outcome env res).
Proof.
  unfold Update. intros H.
  write_cases H s (UpdateUser (Username user) (Email user) (ID user)).
Qed.

Lemma Delete_cases (s : sqlStore) (id : Z) err s' :
  Delete env s id = (err, s') ->
  (exists e, err = Some (Errorf "failed to delete user : " e) /\ s' = s /\
             (conn env AtExec (db s) = Some e \/
              conn env AtExec (db s) = None /\
              exec_stmt (now env) (db s) (DeleteUser id) = inl e))
  \/
  (exists res, conn env AtExec (db s) = None /\
               exec_stmt (now env) (db s) (DeleteUser id) = inr (db s', res) /\
               err = affected_outcome env res).
Proof.
  unfold Delete. intros H.
  write_cases H s (DeleteUser id).
Qed.


Lemma NewDb_inr (loc : Location) (s : sqlStore) :
  NewDb env loc = inr s -> open_location loc = inr (db s).
Proof.
  unfold NewDb. destruct (apply_pragmas env (open_location loc) pragmas); [discriminate|].
  destruct (open_location loc); [discriminate|].
  destruct (migrate env (mkStore d)); [discriminate|].
  intros H. inversion H. reflexivity.
Qed.

Lemma Close_state (s : sqlStore) err s' :
  Close env s = (err, s') -> db s' = set_closed true (db s).
Proof. unfold Close, CloseDB. intros H. inversion H. reflexivity. Qed.

End WriteFacts.

(** Every reachable store satisfies the invariant. *)
Lemma reachable_Inv h s : reachable h s -> Inv h (db s).
Proof.
  induction 1 as [env s H|env s H|h s env s' _ IH H
                  |h s env user err user' s' _ IH H
                  |h s env user err s' _ IH H
                  |h s env id err s' _ IH H
                  |h s env err s' _ IH H].
  - apply NewDb_inr in H. simpl in H. inversion H. apply Inv_empty.
  - apply NewDb_inr in H. simpl in H. inversion H. apply Inv_empty.
  - apply NewDb_inr in H. simpl in H. inversion H as [Hd].
    eapply Inv_ext; [| |exact IH]; reflexivity.
  - pose proof (Create_spec env s user) as Hs. rewrite H in Hs.
    destruct err as [e|]; simpl.
    + subst. assumption.
    + destruct Hs as [_ [_ [_ [res [Hx ->]]]]]. simpl.
      eapply Inv_insert in Hx; [|exact IH]. tauto.
  - apply Update_cases in H. destruct H as [[e [_ [-> _]]]|[res [_ [Hx _]]]]; [assumption|].
    eapply Inv_update in Hx; [|exact IH]. tauto.
  - apply Delete_cases in H. destruct H as [[e [_ [-> _]]]|[res [_ [Hx _]]]]; [assumption|].
    eapply Inv_delete in Hx; [|exact IH]. tauto.
  - apply Close_state in H. eapply Inv_ext; [| |exact IH]; rewrite H; reflexivity.
Qed.

(* ------------------------------------------------------------------------- *)
(** ** The scenario of the contract, run *)

Section ScenarioRuns.

Import Scenario.

Lemma healthy_env0 : healthy env0.
Proof. intros st. reflexivity. Qed.

Example open_memory : NewDb env0 Memory = inr store0.
Proof. reflexivity. Qed.

Example open_directory :
  NewDb env0 Directory
  = inl (Errorf "failed to apply pragma PRAGMA	journal_mode = WAL;: " ErrCantOpen).
Proof. reflexivity. Qed.

Example create_alice : Create env0 store0 alice = (None, set_ID 1 alice, store1).
Proof. reflexivity. Qed.

Example create_alice_again :
  Create env0 store1 alice2 = (Some ErrDuplicateUser, alice2, store1).
Proof. reflexivity. Qed.

Example create_bob : Create env0 store1 bob = (None, set_ID 2 bob, store2).
Proof. reflexivity. Qed.

Example get_alice :
  GetById env0 store1 1 = inr (mkUser 1 "alice" "alice@x.com" 63900000000).
Proof. reflexivity. Qed.

Example delete_alice : Delete env0 store1 1 = (None, mkStore (mkDB false [] 1)).
Proof. reflexivity. Qed.

Example get_deleted : GetById env0 (mkStore (mkDB false [] 1)) 1 = inl ErrUserNotFound.
Proof. reflexivity. Qed.

Example update_collision :
  Update env0 store2 (mkUser 2 "alice" "bob@x.com" 0)
  = (Some (Errorf "failed to update user : " (ErrUnique col_username)), store2).
Proof. reflexivity. Qed.

(** A failing [Commit]: the id is already on the record, the store is as
    before. *)
Example create_commit_fails :
  Create (mkEnv 63900000000 (fun st => match st with AtCommit => Some FIO | _ => None end))
         store0 alice
  = (Some (Errorf "failed to commit transaction : " ErrIO), set_ID 1 alice, store0).
Proof. reflexivity. Qed.

(** No id left: the INSERT fails with SQLITE_FULL. *)
Example create_exhausted :
  Create env0 (mkStore (mkDB false [] max_int64)) alice
  = (Some (Errorf "failed to insert user: " ErrFull), alice,
     mkStore (mkDB false [] max_int64)).
Proof. reflexivity. Qed.

(** A closed store. *)
Example get_closed :
  GetById env0 (snd (Close env0 store1)) 1
  = inl (Errorf "Failed to get user: " ErrDBClosed).
Proof. reflexivity. Qed.

Lemma reachable_store0 : reachable [] store0.
Proof. apply (reach_memory env0). reflexivity. Defined.

Lemma reachable_store1 : reachable [1] store1.
Proof.
  apply (reach_Create [] store0 env0 alice None (set_ID 1 alice) store1).
  - exact reachable_store0.
  - reflexivity.
Defined.

Lemma reachable_store2 : reachable [2; 1] store2.
Proof.
  apply (reach_Create [1] store1 env0 bob None (set_ID 2 bob) store2).
  - exact reachable_store1.
  - reflexivity.
Defined.

End ScenarioRuns.

(* ------------------------------------------------------------------------- *)
(** ** The contract *)

Section CreateContract.

Import Scenario.

(** On a reachable open store whose ids are not exhausted, in a healthy
    environment, the INSERT of a pair that collides with no row goes
    through. *)
Lemma insert_goes_through h d clock u e :
  Inv h d ->
  exhausted d = false ->
  (forall r, In r (table d) -> row_username r <> u /\ row_email r <> e) ->
  exec_stmt clock d (InsertUser u e)
  = inr (mkDB (closed d) (table d ++ [mkRow (seq d + 1) u e clock]) (seq d + 1),
         mkResult (seq d + 1) 1).
Proof.
  intros HI Hex Hfree. apply exec_insert_inr. simpl.
  rewrite (Inv_max h d HI). repeat split; auto.
  apply unique_violation_None. intros r Hr _. auto.
Qed.

(** C1, as the code has it. For every (username, email) pair that collides
    with no existing record, [Create] on a reachable open store, in a
    healthy environment and with ids left, succeeds and writes on the
    caller's record a strictly positive id that no earlier [Create] has
    assigned and no stored row carries; the other fields of the caller's
    record, [CreatedAt] among them, are left as they were. The timestamp
    is set on the stored row: it is the engine's clock at the insertion,
    non-zero when the clock is. *)
Theorem Create_assigns_fresh_id h s env user :
  reachable h s ->
  healthy env ->
  closed (db s) = false ->
  exhausted (db s) = false ->
  (forall r, In r (table (db s)) ->
             row_username r <> Username user /\ row_email r <> Email user) ->
  exists user' s' row,
    Create env s user = (None, user', s') /\
    0 < ID user' /\
    ~ In (ID user') h /\
    (forall r, In r (table (db s)) -> row_id r <> ID user') /\
    Username user' = Username user /\
    Email user' = Email user /\
    CreatedAt user' = CreatedAt user /\
    table (db s') = (table (db s) ++ [row])%list /\
    row = mkRow (ID user') (Username user) (Email user) (now env) /\
    (IsZero (now env) = false -> IsZero (row_created_at row) = false).
Proof.
  intros Hr Hh Hc Hex Hfree.
  pose proof (reachable_Inv h s Hr) as HI.
  pose proof (insert_goes_through h (db s) (now env) _ _ HI Hex Hfree) as Hx.
  exists (set_ID (seq (db s) + 1) user).
  eexists. eexists.
  rewrite (Create_healthy env s user Hh Hc), Hx. simpl.
  destruct HI as [H1 H2 H3 H4 H5 H6].
  rewrite Forall_forall in H4, H5.
  split; [reflexivity|].
  split; [lia|].
  split; [intros Hin; specialize (H5 _ Hin); lia|].
  split; [intros r Hin; specialize (H4 _ Hin); lia|].
  repeat (split; [reflexivity|]). auto.
Qed.

(** The second [Create] of the scenario: bob on the store that holds
    alice. *)
Lemma Create_assigns_fresh_id_witness :
  exists user' s' row,
    Create env0 store1 bob = (None, user', s') /\
    0 < ID user' /\
    ~ In (ID user') [1] /\
    (forall r, In r (table (db store1)) -> row_id r <> ID user') /\
    Username user' = Username bob /\
    Email user' = Email bob /\
    CreatedAt user' = CreatedAt bob /\
    table (db s') = (table (db store1) ++ [row])%list /\
    row = mkRow (ID user') (Username bob) (Email bob) (now env0) /\
    (IsZero (now env0) = false -> IsZero (row_created_at row) = false).
Proof.
  apply (Create_assigns_fresh_id [1] store1 env0 bob).
  - exact reachable_store1.
  - exact healthy_env0.
  - reflexivity.
  - reflexivity.
  - simpl. intros r [<-|[]]. simpl. split; discriminate.
Defined.

(** C1, as the claim has it, fails on the timestamp: after a successful
    [Create] of a pair that collides with nothing, on the fresh store and
    with a non-zero clock, [CreatedAt] of the caller's record is still
    the zero time it held before the call. *)
Lemma Create_leaves_CreatedAt :
  reachable [] store0 /\
  healthy env0 /\
  IsZero (now env0) = false /\
  exists user' s',
    Create env0 store0 alice = (None, user', s') /\
    ID user' = 1 /\
    IsZero (CreatedAt user') = true.
Proof.
  split; [exact reachable_store0|].
  split; [exact healthy_env0|].
  split; [reflexivity|].
  exists (set_ID 1 alice), store1. repeat split.
Qed.

(** C10. When [Create] fails with [ErrDuplicateUser] the caller's record
    is as before the call, its [ID] included: the id is written on the
    record only after the INSERT has succeeded. *)
Theorem Create_duplicate_leaves_record env s user user' s' :
  Create env s user = (Some ErrDuplicateUser, user', s') ->
  user' = user.
Proof.
  intros H. pose proof (Create_user env s user) as Hu. rewrite H in Hu.
  apply Hu. reflexivity.
Qed.

(** A duplicate [Create] with a record that already carries an id and a
    timestamp. *)
Lemma Create_duplicate_leaves_record_witness :
  let user := mkUser 5 "alice" "other@x.com" 7 in
  fst (fst (Create env0 store1 user)) = Some ErrDuplicateUser /\
  snd (fst (Create env0 store1 user)) = user.
Proof.
  intros user. split; [reflexivity|].
  apply (Create_duplicate_leaves_record env0 store1 user
           (snd (fst (Create env0 store1 user))) store1).
  reflexivity.
Defined.

(** C3. [Create] commits only after the id of the INSERT has been
    retrieved: when [LastInsertId] fails the call fails, and every call
    that fails, with [ErrDuplicateUser] or with anything else, leaves the
    store exactly as it was before the call; a call that succeeds leaves
    the table with one more row, at the id written on the record. *)
Theorem Create_failure_rolls_back env s user :
  match Create env s user with
  | (Some _, _, s') => s' = s
  | (None, user', s') =>
      fault env AtLastInsertId = None /\
      fault env AtCommit = None /\
      exists row,
        table (db s') = (table (db s) ++ [row])%list /\
        row_id row = ID user' /\
        row_username row = Username user /\
        row_email row = Email user
  end.
Proof.
  pose proof (Create_spec env s user) as Hs.
  destruct (Create env s user) as [[[e|] user'] s']; [exact Hs|].
  destruct Hs as [_ [Hf1 [Hf2 [res [Hx ->]]]]].
  split; [exact Hf1|]. split; [exact Hf2|].
  apply exec_insert_inr in Hx. simpl in Hx. destruct Hx as [_ [_ [Hd ->]]].
  rewrite Hd. simpl. eexists. split; [reflexivity|]. simpl. auto.
Qed.

End CreateContract.

Section UpdateContract.

Import Scenario.

Lemma filter_nil_iff {A} (p : A -> bool) (l : list A) :
  filter p l = [] <-> forall x, In x l -> p x = false.
Proof.
  induction l as [|a l IH]; simpl.
  - split; [intros _ x []|reflexivity].
  - destruct (p a) eqn:E.
    + split; [discriminate|]. intros H. specialize (H a (or_introl eq_refl)). congruence.
    + rewrite IH. split.
      * intros H x [<-|Hx]; auto.
      * intros H x Hx. apply H. right. exact Hx.
Qed.

Lemma no_row_filter id (t : list Row) :
  (forall r, In r t -> row_id r <> id) <-> filter (has_id id) t = [].
Proof.
  rewrite filter_nil_iff. split; intros H r Hr.
  - apply has_id_false. auto.
  - apply has_id_false. auto.
Qed.

Lemma no_row_find id (t : list Row) :
  (forall r, In r t -> row_id r <> id) <-> find (has_id id) t = None.
Proof.
  split.
  - intros H. destruct (find (has_id id) t) eqn:F; [|reflexivity].
    apply find_some in F. destruct F as [Hr Hid]. apply has_id_true in Hid.
    destruct (H r Hr Hid).
  - intros F r Hr. apply has_id_false. exact (find_none _ _ F r Hr).
Qed.

(** The UPDATE, by cases on the rows of the table. *)
Lemma exec_update_no_row clock d user :
  (forall r, In r (table d) -> row_id r <> ID user) ->
  exec_stmt clock d (UpdateUser (Username user) (Email user) (ID user))
  = inr (d, mkResult 0 0).
Proof.
  intros H. apply no_row_filter in H. unfold exec_stmt. rewrite H. reflexivity.
Qed.

Lemma exec_update_inr clock d user d' res :
  exec_stmt clock d (UpdateUser (Username user) (Email user) (ID user)) = inr (d', res) ->
  (rows_affected res = 0 /\ d' = d /\ forall r, In r (table d) -> row_id r <> ID user)
  \/
  (rows_affected res <> 0 /\
   d' = mkDB (closed d) (overwritten user (table d)) (seq d) /\
   exists r, In r (table d) /\ row_id r = ID user).
Proof.
  unfold exec_stmt.
  destruct (filter (has_id (ID user)) (table d)) as [|r0 hit] eqn:F.
  - intros H. inversion H; subst. left. repeat split. apply no_row_filter. exact F.
  - destruct (unique_violation _ _ _ _); [discriminate|].
    intros H. inversion H; subst; clear H. right. simpl. split; [lia|].
    split; [reflexivity|]. exists r0.
    assert (Hin : In r0 (filter (has_id (ID user)) (table d))) by (rewrite F; left; auto).
    apply filter_In in Hin. destruct Hin as [Hin Hid]. apply has_id_true in Hid. auto.
Qed.

Lemma exec_update_row clock d user :
  (exists r, In r (table d) /\ row_id r = ID user) ->
  (forall r, In r (table d) -> row_id r <> ID user ->
             row_username r <> Username user /\ row_email r <> Email user) ->
  exists res,
    exec_stmt clock d (UpdateUser (Username user) (Email user) (ID user))
    = inr (mkDB (closed d) (overwritten user (table d)) (seq d), res) /\
    rows_affected res <> 0.
Proof.
  intros [r0 [Hin Hid]] Hfree. unfold exec_stmt.
  destruct (filter (has_id (ID user)) (table d)) as [|r1 hit] eqn:F.
  - rewrite <- no_row_filter in F. destruct (F r0 Hin Hid).
  - assert (V : unique_violation (fun r => negb (has_id (ID user) r)) (table d)
                                 (Username user) (Email user) = None).
    { apply unique_violation_None. intros r Hr Ho. apply Hfree; [exact Hr|].
      apply has_id_false. destruct (has_id (ID user) r); [discriminate|reflexivity]. }
    rewrite V. eexists. split; [reflexivity|]. simpl. lia.
Qed.

Lemma exec_update_collision clock d user :
  (exists r, In r (table d) /\ row_id r = ID user) ->
  (exists r, In r (table d) /\ row_id r <> ID user /\
             (row_username r = Username user \/ row_email r = Email user)) ->
  exists c,
    exec_stmt clock d (UpdateUser (Username user) (Email user) (ID user))
    = inl (ErrUnique c).
Proof.
  intros [r0 [Hin Hid]] [r [Hr [Hne Hc]]]. unfold exec_stmt.
  destruct (filter (has_id (ID user)) (table d)) as [|r1 hit] eqn:F.
  - rewrite <- no_row_filter in F. destruct (F r0 Hin Hid).
  - destruct (unique_violation_Some (fun r => negb (has_id (ID user) r)) (table d)
                                    (Username user) (Email user)) as [c ->].
    + exists r. split; [exact Hr|]. split; [|exact Hc].
      apply has_id_false in Hne. rewrite Hne. reflexivity.
    + eauto.
Qed.

(** The DELETE reports the rows it found. *)
Lemma exec_delete_inr clock d id :
  exec_stmt clock d (DeleteUser id)
  = inr (mkDB (closed d) (filter (fun r => negb (has_id id r)) (table d)) (seq d),
         mkResult 0 (Z.of_nat (List.length (filter (has_id id) (table d))))).
Proof. reflexivity. Qed.

Lemma length_zero_iff {A} (l : list A) : Z.of_nat (List.length l) = 0 <-> l = [].
Proof. destruct l; simpl; split; intros H; try reflexivity; try discriminate; lia. Qed.

End UpdateContract.

Section AddressedById.

Import Scenario.

Variable env : Env.
Hypothesis env_healthy : healthy env.

Lemma Update_healthy (s : sqlStore) (user : User) :
  closed (db s) = false ->
  Update env s user =
  match exec_stmt (now env) (db s) (UpdateUser (Username user) (Email user) (ID user)) with
  | inl err => (Some (Errorf "failed to update user : " err), s)
  | inr (d', res) =>
      (if rows_affected res =? 0 then Some ErrUserNotFound else None, mkStore d')
  end.
Proof.
  intros Hc. unfold Update, ExecContext, RowsAffected.
  rewrite conn_healthy by assumption. rewrite env_healthy.
  destruct (exec_stmt _ _ _) as [err|[d' res]].
  - rewrite store_db_eta. reflexivity.
  - destruct (rows_affected res =? 0); reflexivity.
Qed.

Lemma Delete_healthy (s : sqlStore) (id : Z) :
  closed (db s) = false ->
  Delete env s id =
  match exec_stmt (now env) (db s) (DeleteUser id) with
  | inl err => (Some (Errorf "failed to delete user : " err), s)
  | inr (d', res) =>
      (if rows_affected res =? 0 then Some ErrUserNotFound else None, mkStore d')
  end.
Proof.
  intros Hc. unfold Delete, ExecContext, RowsAffected.
  rewrite conn_healthy by assumption. rewrite env_healthy.
  destruct (exec_stmt _ _ _) as [err|[d' res]].
  - rewrite store_db_eta. reflexivity.
  - destruct (rows_affected res =? 0); reflexivity.
Qed.

Lemma GetById_healthy (s : sqlStore) (id : Z) :
  closed (db s) = false ->
  GetById env s id =
  match find (has_id id) (table (db s)) with
  | None => inl ErrUserNotFound
  | Some r => inr (scan r)
  end.
Proof.
  intros Hc. unfold GetById, QueryRowById.
  rewrite conn_healthy by assumption. rewrite env_healthy.
  destruct (find _ _); reflexivity.
Qed.

(** C2. On an open store in a healthy environment, a [Create] whose
    username or email is already taken fails with the sentinel
    [ErrDuplicateUser], which the caller compares by value, and in no
    environment does [Create] return that sentinel without such a row; an
    [Update] of an existing row to a username or email taken by another
    row fails with the wrapped engine error, a storage error and not
    [ErrDuplicateUser]. Both leave the store as it was. *)
Theorem duplicate_on_Create_not_on_Update (s : sqlStore) (user : User) :
  closed (db s) = false ->
  (exhausted (db s) = false ->
   (exists r, In r (table (db s)) /\
              (row_username r = Username user \/ row_email r = Email user)) ->
   Create env s user = (Some ErrDuplicateUser, user, s))
  /\
  ((exists r, In r (table (db s)) /\ row_id r = ID user) ->
   (exists r, In r (table (db s)) /\ row_id r <> ID user /\
              (row_username r = Username user \/ row_email r = Email user)) ->
   exists c,
     let e := Errorf "failed to update user : " (ErrUnique c) in
     Update env s user = (Some e, s) /\
     is_storage_error e = true /\
     e <> ErrDuplicateUser)
  /\
  (forall env' user' s',
      Create env' s user = (Some ErrDuplicateUser, user', s') ->
      exists r, In r (table (db s)) /\
                (row_username r = Username user \/ row_email r = Email user)).
Proof.
  intros Hc. split; [|split]; cycle 2.
  { intros env' user' s'. apply Create_duplicate_collision. }
  - intros Hex [r [Hr Hcol]].
    rewrite (Create_healthy env s user env_healthy Hc).
    unfold exec_stmt. rewrite Hex.
    destruct (unique_violation_Some (fun _ => true) (table (db s))
                                    (Username user) (Email user)) as [c ->].
    + exists r. auto.
    + reflexivity.
  - intros Hrow Hcol.
    destruct (exec_update_collision (now env) (db s) user Hrow Hcol) as [c Hx].
    exists c. simpl. rewrite (Update_healthy s user Hc), Hx.
    repeat split. discriminate.
Qed.


(** C5. On an open store in a healthy environment, [Update] on an id that
    a row has, with a username and an email that no other row holds,
    succeeds and leaves the table with exactly username and email of that
    row overwritten: ids and timestamps are those of before, the rows of
    the other ids are the same rows, the sequence is the same. [Update]
    on an id that no row has returns [ErrUserNotFound] and leaves the
    store exactly as it was. In any environment, when [Update] returns
    [ErrUserNotFound] the store is as before, and whatever it returns the
    store is as before or has the table so overwritten. *)
Theorem Update_overwrites_username_email (s : sqlStore) (user : User) :
  closed (db s) = false ->
  ((exists r, In r (table (db s)) /\ row_id r = ID user) ->
   (forall r, In r (table (db s)) -> row_id r <> ID user ->
              row_username r <> Username user /\ row_email r <> Email user) ->
   Update env s user
   = (None, mkStore (mkDB false (overwritten user (table (db s))) (seq (db s)))))
  /\
  ((forall r, In r (table (db s)) -> row_id r <> ID user) ->
   Update env s user = (Some ErrUserNotFound, s))
  /\
  (map row_id (overwritten user (table (db s))) = map row_id (table (db s)) /\
   map row_created_at (overwritten user (table (db s)))
   = map row_created_at (table (db s)) /\
   (forall r, row_id r <> ID user ->
              In r (overwritten user (table (db s))) <-> In r (table (db s))) /\
   (forall r, In r (overwritten user (table (db s))) -> row_id r = ID user ->
              row_username r = Username user /\ row_email r = Email user))
  /\
  (forall env' err s',
      Update env' s user = (err, s') ->
      (err = Some ErrUserNotFound -> s' = s) /\
      (s' = s \/
       db s' = mkDB (closed (db s)) (overwritten user (table (db s))) (seq (db s)))).
Proof.
  intros Hc. split; [|split; [|split]]; cycle 3.
  { intros env' err s' H. apply Update_cases in H.
    destruct H as [[e [-> [-> _]]]|[res [_ [Hx ->]]]].
    - split; [discriminate|]. left. reflexivity.
    - destruct (exec_update_inr _ _ _ _ _ Hx) as [[H0 [Hd _]]|[Hn [Hd _]]].
      + assert (s' = s) as -> by (destruct s, s'; simpl in *; congruence). auto.
      + split; [|right; exact Hd]. unfold affected_outcome.
        destruct (fault env' AtRowsAffected); [discriminate|].
        apply Z.eqb_neq in Hn. rewrite Hn. discriminate. }
  - intros Hrow Hfree.
    destruct (exec_update_row (now env) (db s) user Hrow Hfree) as [res [Hx Hn]].
    rewrite (Update_healthy s user Hc), Hx.
    apply Z.eqb_neq in Hn. rewrite Hn, Hc. reflexivity.
  - intros Hno. rewrite (Update_healthy s user Hc), (exec_update_no_row _ _ _ Hno).
    simpl. rewrite store_db_eta. reflexivity.
  - unfold overwritten. split; [|split; [|split]].
    + rewrite map_map. apply map_ext. intros r. destruct (row_id r =? ID user); reflexivity.
    + rewrite map_map. apply map_ext. intros r. destruct (row_id r =? ID user); reflexivity.
    + intros r Hne. rewrite in_map_iff. split.
      * intros [x [Hx Hin]]. destruct (row_id x =? ID user) eqn:E.
        -- apply Z.eqb_eq in E. subst r. simpl in Hne. contradiction.
        -- subst x. exact Hin.
      * intros Hin. exists r. apply Z.eqb_neq in Hne. rewrite Hne. auto.
    + intros r Hin Hid. apply in_map_iff in Hin. destruct Hin as [x [Hx Hin]].
      destruct (row_id x =? ID user) eqn:E.
      * subst r. simpl. auto.
      * subst x. apply Z.eqb_neq in E. contradiction.
Qed.

End AddressedById.

(* ------------------------------------------------------------------------- *)
(** ** Sequences of calls *)

Section Calls.

Lemma find_snoc {A} (p : A -> bool) (l : list A) (x a : A) :
  find p l = Some x -> find p (l ++ [a]) = Some x.
Proof.
  induction l as [|b l IH]; simpl; [discriminate|].
  destruct (p b); auto.
Qed.

Lemma find_snoc_new {A} (p : A -> bool) (l : list A) (a : A) :
  find p l = None -> p a = true -> find p (l ++ [a]) = Some a.
Proof.
  induction l as [|b l IH]; simpl; intros Hn Ha.
  - rewrite Ha. reflexivity.
  - destruct (p b); [discriminate|]. auto.
Qed.

Lemma find_overwritten id user (t : list Row) :
  ID user <> id ->
  find (has_id id) (overwritten user t) = find (has_id id) t.
Proof.
  intros Hne. unfold overwritten. induction t as [|r t IH]; simpl; [reflexivity|].
  destruct (row_id r =? ID user) eqn:E.
  - apply Z.eqb_eq in E. unfold has_id at 1 3. simpl.
    assert ((row_id r =? id) = false) as -> by (apply Z.eqb_neq; congruence).
    exact IH.
  - destruct (has_id id r); [reflexivity|exact IH].
Qed.

Lemma find_deleted id id' (t : list Row) :
  id' <> id ->
  find (has_id id) (filter (fun r => negb (has_id id' r)) t) = find (has_id id) t.
Proof.
  intros Hne. induction t as [|r t IH]; simpl; [reflexivity|].
  destruct (has_id id' r) eqn:E'; simpl.
  - apply has_id_true in E'.
    assert (has_id id r = false) as -> by (apply has_id_false; congruence).
    exact IH.
  - destruct (has_id id r); [reflexivity|exact IH].
Qed.

(** No call of the five operations opens or closes the handle. *)
Lemma call_closed (s : sqlStore) (c : Call) :
  closed (db (snd (call s c))) = closed (db s).
Proof.
  destruct c as [env user|env id|env|env user|env id]; simpl; try reflexivity.
  - pose proof (Create_spec env s user) as H.
    destruct (Create env s user) as [[[e|] user'] s']; simpl.
    + subst. reflexivity.
    + destruct H as [_ [_ [_ [res [Hx _]]]]]. eapply exec_stmt_closed; eauto.
  - destruct (Update env s user) as [err s'] eqn:H. simpl. apply Update_cases in H.
    destruct H as [[e [_ [-> _]]]|[res [_ [Hx _]]]]; [reflexivity|].
    eapply exec_stmt_closed; eauto.
  - destruct (Delete env s id) as [err s'] eqn:H. simpl. apply Delete_cases in H.
    destruct H as [[e [_ [-> _]]]|[res [_ [Hx _]]]]; [reflexivity|].
    eapply exec_stmt_closed; eauto.
Qed.

(** A call that does not write to the row [id] leaves the row that a
    SELECT by [id] finds. *)
Lemma call_keeps_row (s : sqlStore) (c : Call) (id : Z) (row : Row) :
  writes_to id c = false ->
  find (has_id id) (table (db s)) = Some row ->
  find (has_id id) (table (db (snd (call s c)))) = Some row.
Proof.
  intros Hw Hf.
  destruct c as [env user|env id'|env|env user|env id']; simpl in *; try assumption.
  - pose proof (Create_spec env s user) as H.
    destruct (Create env s user) as [[[e|] user'] s']; simpl.
    + subst. assumption.
    + destruct H as [_ [_ [_ [res [Hx _]]]]]. apply exec_insert_inr in Hx. simpl in Hx.
      destruct Hx as [_ [_ [-> _]]]. simpl. apply find_snoc. assumption.
  - destruct (Update env s user) as [err s'] eqn:H. simpl. apply Update_cases in H.
    destruct H as [[e [_ [-> _]]]|[res [_ [Hx _]]]]; [assumption|].
    apply exec_update_inr in Hx. destruct Hx as [[_ [-> _]]|[_ [-> _]]]; [assumption|].
    simpl. rewrite find_overwritten; [assumption|]. apply Z.eqb_neq. assumption.
  - destruct (Delete env s id') as [err s'] eqn:H. simpl. apply Delete_cases in H.
    destruct H as [[e [_ [-> _]]]|[res [_ [Hx _]]]]; [assumption|].
    rewrite exec_delete_inr in Hx. inversion Hx as [[Hd Hres]]. simpl.
    rewrite find_deleted; [assumption|]. apply Z.eqb_neq. assumption.
Qed.

Lemma calls_cons (s : sqlStore) (c : Call) (cs : list Call) :
  calls s (c :: cs) =
  (fst (call s c) :: fst (calls (snd (call s c)) cs), snd (calls (snd (call s c)) cs)).
Proof.
  simpl. destruct (call s c) as [err s1]. simpl.
  destruct (calls s1 cs) as [errs s2]. reflexivity.
Qed.

Lemma calls_closed (s : sqlStore) (cs : list Call) :
  closed (db (snd (calls s cs))) = closed (db s).
Proof.
  revert s. induction cs as [|c cs IH]; intros s; [reflexivity|].
  rewrite calls_cons. simpl. rewrite IH. apply call_closed.
Qed.

Lemma calls_keep_row (s : sqlStore) (cs : list Call) (id : Z) (row : Row) :
  forallb (fun c => negb (writes_to id c)) cs = true ->
  find (has_id id) (table (db s)) = Some row ->
  find (has_id id) (table (db (snd (calls s cs)))) = Some row.
Proof.
  revert s. induction cs as [|c cs IH]; intros s Hw Hf; [assumption|].
  simpl in Hw. apply andb_true_iff in Hw. destruct Hw as [Hc Hcs].
  rewrite calls_cons. simpl. apply IH; [assumption|].
  apply call_keeps_row; [|assumption].
  destruct (writes_to id c); [discriminate|reflexivity].
Qed.

Lemma calls_length (s : sqlStore) (cs : list Call) :
  List.length (fst (calls s cs)) = List.length cs.
Proof.
  revert s. induction cs as [|c cs IH]; intros s; [reflexivity|].
  rewrite calls_cons. simpl. rewrite IH. reflexivity.
Qed.

End Calls.

Section ReadContract.

Import Scenario.

(** C6. After a successful [Create] on a reachable store, the row that
    the call stored holds the assigned id, the username and the email of
    the call and the engine's clock at the insertion; [GetById] with the
    assigned id, right away or after any calls that do not write to that
    row, returns a record equal to it in all four fields. *)
Theorem GetById_returns_created h s env user user' s' :
  reachable h s ->
  Create env s user = (None, user', s') ->
  In (mkRow (ID user') (Username user) (Email user) (now env)) (table (db s')) /\
  forall cs env',
    forallb (fun c => negb (writes_to (ID user') c)) cs = true ->
    healthy env' ->
    GetById env' (snd (calls s' cs)) (ID user')
    = inr (mkUser (ID user') (Username user) (Email user) (now env)).
Proof.
  intros Hr HC.
  pose proof (reachable_Inv h s Hr) as HI.
  pose proof (Create_spec env s user) as Hs. rewrite HC in Hs.
  destruct Hs as [Hconn [_ [_ [res [Hx ->]]]]].
  apply conn_None in Hconn. destruct Hconn as [Hopen _].
  destruct (Inv_insert _ _ _ _ _ _ _ HI Hx) as [Hid [_ [Ht [Hcl _]]]].
  simpl. rewrite Hid, Ht. split.
  - apply in_or_app. right. left. reflexivity.
  - intros cs env' Hw Hh.
    assert (Hfind : find (has_id (seq (db s) + 1)) (table (db s'))
                    = Some (mkRow (seq (db s) + 1) (Username user) (Email user) (now env))).
    { rewrite Ht. apply find_snoc_new.
      - apply no_row_find. intros r Hin.
        destruct HI as [_ _ _ H4 _ _]. rewrite Forall_forall in H4.
        specialize (H4 r Hin). lia.
      - apply has_id_true. reflexivity. }
    rewrite GetById_healthy; [|assumption|].
    + rewrite (calls_keep_row _ _ _ _ Hw Hfind). reflexivity.
    + rewrite calls_closed. congruence.
Qed.

(** alice is read back after bob was created and deleted. *)
Lemma GetById_returns_created_witness :
  Create env0 store0 alice = (None, set_ID 1 alice, store1) /\
  GetById env0 (snd (calls store1 [CallCreate env0 bob; CallDelete env0 2])) 1
  = inr (mkUser 1 "alice" "alice@x.com" 63900000000).
Proof.
  split; [reflexivity|].
  destruct (GetById_returns_created [] store0 env0 alice (set_ID 1 alice) store1
              reachable_store0 eq_refl) as [_ H].
  apply (H [CallCreate env0 bob; CallDelete env0 2] env0).
  - reflexivity.
  - exact healthy_env0.
Defined.

Lemma scan_all_healthy env (rows : list Row) (users : list User) :
  healthy env -> scan_all env rows users = inr (users ++ map scan rows)%list.
Proof.
  intros Hh. revert users. induction rows as [|r rows IH]; intros users; simpl.
  - rewrite app_nil_r. reflexivity.
  - rewrite Hh, IH, <- app_assoc. reflexivity.
Qed.

Lemma ListAll_healthy env (s : sqlStore) :
  healthy env -> closed (db s) = false ->
  ListAll env s = inr (map scan (table (db s))).
Proof.
  intros Hh Hc. unfold ListAll, QueryAll. rewrite conn_healthy by assumption.
  rewrite scan_all_healthy by assumption. rewrite Hh. reflexivity.
Qed.

(** What one call adds to the number of rows when it is not a [Delete]:
    one for a [Create] that succeeds, nothing otherwise. *)
Lemma call_length (s : sqlStore) (c : Call) :
  is_delete c = false ->
  List.length (table (db (snd (call s c))))
  = (List.length (table (db s)) + created [c] [fst (call s c)])%nat.
Proof.
  intros Hd.
  destruct c as [env user|env id'|env|env user|env id']; simpl in *;
    try discriminate; try lia.
  - pose proof (Create_spec env s user) as H.
    destruct (Create env s user) as [[[e|] user'] s']; simpl.
    + subst. lia.
    + destruct H as [_ [_ [_ [res [Hx _]]]]]. apply exec_insert_inr in Hx. simpl in Hx.
      destruct Hx as [_ [_ [-> _]]]. simpl. rewrite length_app. simpl. lia.
  - destruct (Update env s user) as [err s'] eqn:H. simpl. apply Update_cases in H.
    destruct H as [[e [-> [-> _]]]|[res [_ [Hx ->]]]]; [lia|].
    apply exec_update_inr in Hx. destruct Hx as [[_ [-> _]]|[_ [-> _]]];
      simpl; unfold overwritten; rewrite ?length_map;
      destruct (affected_outcome env res); lia.
Qed.

Lemma created_cons (c : Call) (cs : list Call) (err : option error)
      (errs : list (option error)) :
  created (c :: cs) (err :: errs) = (created [c] [err] + created cs errs)%nat.
Proof.
  destruct c, err; simpl; try reflexivity; destruct cs; reflexivity.
Qed.

Lemma calls_count (s : sqlStore) (cs : list Call) :
  forallb (fun c => negb (is_delete c)) cs = true ->
  List.length (table (db (snd (calls s cs))))
  = (List.length (table (db s)) + created cs (fst (calls s cs)))%nat.
Proof.
  revert s. induction cs as [|c cs IH]; intros s Hd; [simpl; lia|].
  simpl in Hd. apply andb_true_iff in Hd. destruct Hd as [Hc Hcs].
  rewrite calls_cons. simpl fst. simpl snd. rewrite created_cons.
  rewrite IH by assumption. rewrite call_length; [lia|].
  destruct (is_delete c); [discriminate|reflexivity].
Qed.

(** C8. [ListAll] on a store just opened on a new location returns the
    empty sequence and no error; after any calls on it among which no
    [Delete], [ListAll] returns exactly as many records as calls of
    [Create] have succeeded, and they are the stored rows. *)
Theorem ListAll_counts_creates env env1 (s0 : sqlStore) (cs : list Call) :
  healthy env ->
  NewDb env1 Memory = inr s0 \/ NewDb env1 (File [] 0) = inr s0 ->
  forallb (fun c => negb (is_delete c)) cs = true ->
  ListAll env s0 = inr [] /\
  exists users,
    ListAll env (snd (calls s0 cs)) = inr users /\
    List.length users = created cs (fst (calls s0 cs)) /\
    forall u, In u users <-> exists r, In r (table (db (snd (calls s0 cs)))) /\ u = scan r.
Proof.
  intros Hh Hnew Hd.
  assert (Hdb : db s0 = mkDB false [] 0).
  { destruct Hnew as [H|H]; apply NewDb_inr in H; simpl in H; inversion H; reflexivity. }
  split.
  - rewrite ListAll_healthy; [|assumption|rewrite Hdb; reflexivity].
    rewrite Hdb. reflexivity.
  - eexists. split; [|split].
    + apply ListAll_healthy; [assumption|]. rewrite calls_closed, Hdb. reflexivity.
    + rewrite length_map, calls_count by assumption. rewrite Hdb. reflexivity.
    + intros u. rewrite in_map_iff. split; intros [r [H1 H2]]; exists r; auto.
Qed.

(** Three calls of [Create], the second a duplicate: two records. *)
Lemma ListAll_counts_creates_witness :
  ListAll env0 store0 = inr [] /\
  exists users,
    ListAll env0 (snd (calls store0 [CallCreate env0 alice; CallCreate env0 alice2;
                                     CallCreate env0 bob])) = inr users /\
    List.length users = 2%nat.
Proof.
  destruct (ListAll_counts_creates env0 env0 store0
              [CallCreate env0 alice; CallCreate env0 alice2; CallCreate env0 bob]
              healthy_env0 (or_introl eq_refl) eq_refl) as [H0 [users [H1 [H2 _]]]].
  split; [exact H0|]. exists users. split; [exact H1|exact H2].
Defined.

End ReadContract.

Section TableInvariant.

Import Scenario.

Lemma Inv_unique_fields h d : Inv h d -> unique_fields d.
Proof. intros [_ H2 H3 _ _ _]. split; assumption. Qed.

Lemma nonempty_overwritten user (t : list Row) :
  Username user <> "" -> Email user <> "" ->
  Forall (fun r => row_username r <> "" /\ row_email r <> "") t ->
  Forall (fun r => row_username r <> "" /\ row_email r <> "") (overwritten user t).
Proof.
  intros Hu He H. unfold overwritten. rewrite Forall_forall in *.
  intros r Hr. apply in_map_iff in Hr. destruct Hr as [x [<- Hx]].
  destruct (row_id x =? ID user); simpl; auto.
Qed.

(** C7, as the code has it. In every reachable store, username and email
    are each unique among the stored rows, and [Create], [Update] and
    [Delete] keep them so. The store does not refuse an empty username
    or email: that no stored row has one is kept by [Delete], and by
    [Create] and [Update] when the record they are given has a non-empty
    username and a non-empty email. *)
Theorem reachable_unique_fields h s :
  reachable h s ->
  unique_fields (db s) /\
  (forall env user err user' s',
      Create env s user = (err, user', s') ->
      unique_fields (db s') /\
      (nonempty_fields (db s) -> Username user <> "" -> Email user <> "" ->
       nonempty_fields (db s'))) /\
  (forall env user err s',
      Update env s user = (err, s') ->
      unique_fields (db s') /\
      (nonempty_fields (db s) -> Username user <> "" -> Email user <> "" ->
       nonempty_fields (db s'))) /\
  (forall env id err s',
      Delete env s id = (err, s') ->
      unique_fields (db s') /\
      (nonempty_fields (db s) -> nonempty_fields (db s'))).
Proof.
  intros Hr. split; [|split; [|split]].
  - eapply Inv_unique_fields, reachable_Inv, Hr.
  - intros env user err user' s' H. split.
    + eapply Inv_unique_fields, reachable_Inv, reach_Create; eauto.
    + intros Hne Hu He. unfold nonempty_fields in *.
      pose proof (Create_spec env s user) as Hs. rewrite H in Hs.
      destruct err as [e|]; [subst; assumption|].
      destruct Hs as [_ [_ [_ [res [Hx _]]]]]. apply exec_insert_inr in Hx. simpl in Hx.
      destruct Hx as [_ [_ [-> _]]]. simpl. apply Forall_app. split; [assumption|].
      constructor; [simpl; auto|constructor].
  - intros env user err s' H. split.
    + eapply Inv_unique_fields, reachable_Inv, reach_Update; eauto.
    + intros Hne Hu He. unfold nonempty_fields in *. apply Update_cases in H.
      destruct H as [[e [_ [-> _]]]|[res [_ [Hx _]]]]; [assumption|].
      apply exec_update_inr in Hx. destruct Hx as [[_ [-> _]]|[_ [-> _]]]; [assumption|].
      simpl. apply nonempty_overwritten; assumption.
  - intros env id err s' H. split.
    + eapply Inv_unique_fields, reachable_Inv, reach_Delete; eauto.
    + intros Hne. unfold nonempty_fields in *. apply Delete_cases in H.
      destruct H as [[e [_ [-> _]]]|[res [_ [Hx _]]]]; [assumption|].
      rewrite exec_delete_inr in Hx. inversion Hx as [[Hd Hres]]. simpl.
      rewrite Forall_forall in *. intros r Hin. apply filter_In in Hin. apply Hne. tauto.
Qed.

(** Renaming bob on the store of two rows. *)
Lemma reachable_unique_fields_witness :
  reachable [2; 1] store2 /\
  unique_fields (db store2) /\
  unique_fields (db (snd (Update env0 store2 (mkUser 2 "robert" "bob@x.com" 0)))) /\
  nonempty_fields (db (snd (Update env0 store2 (mkUser 2 "robert" "bob@x.com" 0)))).
Proof.
  split; [exact reachable_store2|].
  destruct (reachable_unique_fields [2; 1] store2 reachable_store2) as [H0 [_ [HU _]]].
  split; [exact H0|].
  destruct (HU env0 (mkUser 2 "robert" "bob@x.com" 0) _ _ eq_refl) as [H1 H2].
  split; [exact H1|]. apply H2.
  - repeat constructor; simpl; discriminate.
  - simpl. discriminate.
  - simpl. discriminate.
Defined.

(** C7, as the claim has it, fails on the empty fields: the store that
    [Create] leaves when it is given the empty username and the empty
    email on the fresh store is reachable and holds a row with both. *)
Lemma reachable_empty_username :
  exists h s r,
    reachable h s /\
    Create env0 store0 (mkUser 0 "" "" 0) = (None, mkUser 1 "" "" 0, s) /\
    In r (table (db s)) /\
    row_username r = "" /\
    row_email r = "".
Proof.
  exists [1], (mkStore (mkDB false [mkRow 1 "" "" 63900000000] 1)),
    (mkRow 1 "" "" 63900000000).
  split; [|repeat split; left; reflexivity].
  apply (reach_Create [] store0 env0 (mkUser 0 "" "" 0) None (mkUser 1 "" "" 0)).
  - exact reachable_store0.
  - reflexivity.
Qed.

End TableInvariant.

Section ClosedStore.

Import Scenario.

(** On a closed store every call fails with a storage error and leaves
    the store as it is. *)
Lemma call_on_closed (s : sqlStore) (c : Call) :
  closed (db s) = true ->
  exists e, call s c = (Some e, s) /\ is_storage_error e = true.
Proof.
  intros Hc. destruct c as [env user|env id|env|env user|env id]; simpl.
  - unfold Create, BeginTx. rewrite conn_closed by assumption. eauto.
  - unfold GetById, QueryRowById. rewrite conn_closed by assumption. simpl. eauto.
  - unfold ListAll, QueryAll. rewrite conn_closed by assumption. simpl. eauto.
  - unfold Update, ExecContext. rewrite conn_closed by assumption.
    rewrite store_db_eta. eauto.
  - unfold Delete, ExecContext. rewrite conn_closed by assumption.
    rewrite store_db_eta. eauto.
Qed.

Lemma calls_on_closed (s : sqlStore) (cs : list Call) :
  closed (db s) = true ->
  Forall (fun r => exists e, r = Some e /\ is_storage_error e = true) (fst (calls s cs)) /\
  snd (calls s cs) = s.
Proof.
  intros Hc. induction cs as [|c cs [IH1 IH2]]; [split; [constructor|reflexivity]|].
  rewrite calls_cons. cbn [fst snd].
  destruct (call_on_closed s c Hc) as [e [-> He]]. cbn [fst snd].
  split; [constructor; eauto|exact IH2].
Qed.

(** C9. After [Close], every call of [Create], [GetById], [ListAll],
    [Update] or [Delete], the first as well as any later one, returns an
    error, and the error is a storage error; the store stays closed. *)
Theorem operations_fail_after_Close env (s : sqlStore) (cs : list Call) :
  let closed_store := snd (Close env s) in
  List.length (fst (calls closed_store cs)) = List.length cs /\
  Forall (fun r => exists e, r = Some e /\ is_storage_error e = true)
         (fst (calls closed_store cs)) /\
  snd (calls closed_store cs) = closed_store /\
  closed (db closed_store) = true.
Proof.
  intros closed_store.
  assert (Hc : closed (db closed_store) = true) by reflexivity.
  split; [apply calls_length|].
  destruct (calls_on_closed closed_store cs Hc) as [H1 H2]. auto.
Qed.

End ClosedStore.

Section Witnesses.

Import Scenario.

(** bob takes the username of alice, by [Create] and by [Update]. *)
Lemma duplicate_on_Create_not_on_Update_witness :
  let user := mkUser 2 "alice" "bob@x.com" 0 in
  Create env0 store2 user = (Some ErrDuplicateUser, user, store2) /\
  exists c,
    let e := Errorf "failed to update user : " (ErrUnique c) in
    Update env0 store2 user = (Some e, store2) /\
    is_storage_error e = true /\
    e <> ErrDuplicateUser.
Proof.
  intros user.
  destruct (duplicate_on_Create_not_on_Update env0 healthy_env0 store2 user eq_refl)
    as [HC [HU _]].
  split.
  - apply HC; [reflexivity|].
    exists (mkRow 1 "alice" "alice@x.com" 63900000000). split; [left; reflexivity|].
    left. reflexivity.
  - apply HU.
    + exists (mkRow 2 "bob" "bob@x.com" 63900000000).
      split; [right; left; reflexivity|reflexivity].
    + exists (mkRow 1 "alice" "alice@x.com" 63900000000).
      split; [left; reflexivity|]. split; [simpl; lia|left; reflexivity].
Defined.


(** Renaming bob, and updating the id 9 that no row has. *)
Lemma Update_overwrites_username_email_witness :
  Update env0 store2 (mkUser 2 "robert" "rob@x.com" 0)
  = (None, mkStore (mkDB false [mkRow 1 "alice" "alice@x.com" 63900000000;
                                mkRow 2 "robert" "rob@x.com" 63900000000] 2)) /\
  Update env0 store2 (mkUser 9 "robert" "rob@x.com" 0) = (Some ErrUserNotFound, store2).
Proof.
  split.
  - destruct (Update_overwrites_username_email env0 healthy_env0 store2
                (mkUser 2 "robert" "rob@x.com" 0) eq_refl) as [H _].
    apply H.
    + exists (mkRow 2 "bob" "bob@x.com" 63900000000).
      split; [right; left; reflexivity|reflexivity].
    + simpl. intros r [<-|[<-|[]]] Hne; simpl in *; [split; discriminate|lia].
  - destruct (Update_overwrites_username_email env0 healthy_env0 store2
                (mkUser 9 "robert" "rob@x.com" 0) eq_refl) as [_ [H _]].
    apply H. simpl. intros r [<-|[<-|[]]]; simpl; lia.
Defined.

End Witnesses.

(* ------------------------------------------------------------------------- *)
(** ** Beyond the contract: opening, reading, deleting *)

Section ReadFacts.

Variable env : Env.

(** A row of a table without duplicate ids is the one a SELECT by its id
    finds. *)
Lemma find_unique (t : list Row) (r : Row) :
  NoDup (map row_id t) -> In r t -> find (has_id (row_id r)) t = Some r.
Proof.
  induction t as [|a t IH]; simpl; intros Hnd Hin; [destruct Hin|].
  inversion Hnd as [|x l Hnin Hnd']; subst.
  destruct Hin as [->|Hin].
  - assert (has_id (row_id r) r = true) as -> by (apply has_id_true; reflexivity).
    reflexivity.
  - destruct (has_id (row_id r) a) eqn:E.
    + apply has_id_true in E. exfalso. apply Hnin. rewrite E.
      apply in_map. exact Hin.
    + apply IH; assumption.
Qed.

Lemma same_id_same_row (t : list Row) (r r' : Row) :
  NoDup (map row_id t) -> In r t -> In r' t -> row_id r' = row_id r -> r' = r.
Proof.
  intros Hnd Hr Hr' Hid.
  pose proof (find_unique t r Hnd Hr) as F.
  pose proof (find_unique t r' Hnd Hr') as F'.
  rewrite Hid in F'. congruence.
Qed.

(** [GetById], read backwards: a record comes from an open store and is
    the first row with the id. *)
Lemma GetById_inr (s : sqlStore) (id : Z) (u : User) :
  GetById env s id = inr u ->
  closed (db s) = false /\
  exists r, find (has_id id) (table (db s)) = Some r /\ u = scan r.
Proof.
  unfold GetById, QueryRowById, conn.
  destruct (closed (db s)); [discriminate|].
  destruct (fault env AtQuery); [rewrite is_ErrNoRows_fault; discriminate|].
  destruct (find (has_id id) (table (db s))) as [r|]; [|discriminate].
  destruct (fault env AtScan); [rewrite is_ErrNoRows_fault; discriminate|].
  intros H. inversion H. eauto.
Qed.


Lemma scan_all_inl (rows : list Row) (acc : list User) (e : error) :
  scan_all env rows acc = inl e ->
  is_storage_error e = true /\ fault env AtScan <> None /\ rows <> [].
Proof.
  revert acc. induction rows as [|r rows IH]; simpl; intros acc H; [discriminate|].
  destruct (fault env AtScan) eqn:F.
  - inversion H. repeat split; discriminate.
  - destruct (IH _ H) as [_ [H2 _]]. exfalso. apply H2. reflexivity.
Qed.

End ReadFacts.

(** Every row of a reachable store carries an id of the history. *)
Lemma reachable_rows_assigned h s :
  reachable h s -> Forall (fun r => In (row_id r) h) (table (db s)).
Proof.
  induction 1 as [env s H|env s H|h s env s' _ IH H
                  |h s env user err user' s' _ IH H
                  |h s env user err s' _ IH H
                  |h s env id err s' _ IH H
                  |h s env err s' _ IH H].
  - apply NewDb_inr in H. simpl in H. inversion H. constructor.
  - apply NewDb_inr in H. simpl in H. inversion H. constructor.
  - apply NewDb_inr in H. simpl in H. inversion H. exact IH.
  - pose proof (Create_spec env s user) as Hs. rewrite H in Hs.
    destruct err as [e|]; simpl; [subst; exact IH|].
    destruct Hs as [_ [_ [_ [res [Hx ->]]]]].
    apply exec_insert_inr in Hx. simpl in Hx. destruct Hx as [_ [_ [-> ->]]]. simpl.
    apply Forall_app. split.
    + eapply Forall_impl; [|exact IH]. simpl. auto.
    + constructor; [left; reflexivity|constructor].
  - apply Update_cases in H. destruct H as [[e [_ [-> _]]]|[res [_ [Hx _]]]]; [exact IH|].
    apply exec_update_inr in Hx. destruct Hx as [[_ [-> _]]|[_ [-> _]]]; [exact IH|].
    simpl. unfold overwritten. rewrite Forall_forall in *. intros r Hr.
    apply in_map_iff in Hr. destruct Hr as [x [<- Hx]].
    destruct (row_id x =? ID user); simpl; auto.
  - apply Delete_cases in H. destruct H as [[e [_ [-> _]]]|[res [_ [Hx _]]]]; [exact IH|].
    rewrite exec_delete_inr in Hx. inversion Hx as [[Hd Hres]]. simpl.
    rewrite Forall_forall in *. intros r Hr. apply filter_In in Hr. apply IH. tauto.
  - apply Close_state in H. rewrite H. exact IH.
Qed.

Section OpeningAndErrors.

Import Scenario.

(** X1. [NewDb] returns a store only when the four pragmas and the
    migration went through; the store is then open and holds exactly the
    rows and the sequence that the location held (none for the in-memory
    database), so that creating the schema again changes nothing. On a
    directory it fails in every environment. Its failures are storage
    errors, and on any other location it succeeds when no fault occurs. *)
Theorem NewDb_keeps_stored_rows env loc :
  (forall s, NewDb env loc = inr s ->
     closed (db s) = false /\
     fault env AtPragma = None /\
     fault env AtMigrate = None /\
     match loc with
     | Memory => table (db s) = [] /\ seq (db s) = 0
     | File rows sequence => table (db s) = rows /\ seq (db s) = sequence
     | Directory => False
     end) /\
  (forall e, NewDb env loc = inl e -> is_storage_error e = true) /\
  (healthy env -> loc <> Directory -> exists s, NewDb env loc = inr s).
Proof.
  unfold NewDb, migrate. split; [|split].
  - intros s. destruct loc; simpl; unfold conn; simpl;
      destruct (fault env AtPragma); try discriminate;
      destruct (fault env AtMigrate); try discriminate;
      intros H; inversion H; simpl; auto.
  - intros e. destruct loc; simpl; unfold conn; simpl;
      destruct (fault env AtPragma); try (intros H; inversion H; reflexivity);
      destruct (fault env AtMigrate); intros H; inversion H; reflexivity.
  - intros Hh Hd. destruct loc; [|contradiction|]; simpl; unfold conn; simpl;
      rewrite !Hh; eauto.
Qed.

(** A file that holds alice is opened. *)
Lemma NewDb_keeps_stored_rows_witness :
  exists s,
    NewDb env0 (File (table (db store1)) (seq (db store1))) = inr s /\
    closed (db s) = false /\
    table (db s) = table (db store1) /\
    seq (db s) = seq (db store1).
Proof.
  destruct (NewDb_keeps_stored_rows env0 (File (table (db store1)) (seq (db store1))))
    as [Hok [_ Hgo]].
  destruct (Hgo healthy_env0) as [s Hs]; [discriminate|].
  exists s. split; [exact Hs|].
  destruct (Hok s Hs) as [Hc [_ [_ [Ht Hq]]]]. auto.
Defined.

(** X2. The ids that [Create] assigns only grow: in the history of a
    reachable store, which lists them latest first, every id is greater
    than all the ids assigned before it, whatever has been updated,
    deleted, closed or opened again in between. *)
Theorem assigned_ids_only_grow h s :
  reachable h s -> StronglySorted Z.gt h.
Proof.
  intros Hr. induction Hr as [env s H|env s H|h s env s' Hr IH H
                              |h s env user err user' s' Hr IH H
                              |h s env user err s' Hr IH H
                              |h s env id err s' Hr IH H
                              |h s env err s' Hr IH H]; try assumption;
    try constructor.
  pose proof (reachable_Inv h s Hr) as HI.
  pose proof (Create_spec env s user) as Hs. rewrite H in Hs.
  destruct err as [e|]; simpl; [assumption|].
  destruct Hs as [_ [_ [_ [res [Hx ->]]]]].
  destruct (Inv_insert _ _ _ _ _ _ _ HI Hx) as [Hid _]. simpl. rewrite Hid.
  constructor; [assumption|].
  destruct HI as [_ _ _ _ H5 _]. eapply Forall_impl; [|exact H5]. simpl. intros; lia.
Qed.

Lemma assigned_ids_only_grow_witness : StronglySorted Z.gt [2; 1].
Proof. exact (assigned_ids_only_grow [2; 1] store2 reachable_store2). Defined.

(** X3. Each operation returns only the errors of its own kind: [Create]
    never returns [ErrUserNotFound]; [GetById], [Update] and [Delete]
    never return [ErrDuplicateUser]; [ListAll] and [Close] return neither
    sentinel. Everything else they return is a storage error. *)
Theorem errors_by_operation env s :
  (forall user e user' s',
      Create env s user = (Some e, user', s') ->
      e = ErrDuplicateUser \/ is_storage_error e = true) /\
  (forall id e,
      GetById env s id = inl e ->
      e = ErrUserNotFound \/ is_storage_error e = true) /\
  (forall e, ListAll env s = inl e -> is_storage_error e = true) /\
  (forall user e s',
      Update env s user = (Some e, s') ->
      e = ErrUserNotFound \/ is_storage_error e = true) /\
  (forall id e s',
      Delete env s id = (Some e, s') ->
      e = ErrUserNotFound \/ is_storage_error e = true) /\
  (forall e s', Close env s = (Some e, s') -> is_storage_error e = true).
Proof.
  split; [|split; [|split; [|split; [|split]]]].
  - intros user e user' s'. unfold Create, BeginTx.
    destruct (conn env AtBeginTx (db s)); [intros H; inversion H; auto|].
    unfold TxExecContext, LastInsertId, Commit, Rollback, restore. simpl.
    destruct (fault env AtExec); simpl.
    { rewrite Contains_fault. simpl. intros H; inversion H; auto. }
    destruct (exec_stmt (now env) (db s) (InsertUser (Username user) (Email user)))
      as [err|[d' res]].
    { destruct (Contains (Error err) "UNIQUE constraint failed"); simpl;
        intros H; inversion H; auto. }
    destruct (fault env AtLastInsertId); simpl; [intros H; inversion H; auto|].
    destruct (fault env AtCommit); simpl; intros H; inversion H; auto.
  - intros id e. unfold GetById.
    destruct (QueryRowById env (db s) id) as [err|r]; [|discriminate].
    destruct (is_ErrNoRows err); intros H; inversion H; auto.
  - intros e. unfold ListAll.
    destruct (QueryAll env (db s)) as [err|rows]; [intros H; inversion H; reflexivity|].
    destruct (scan_all env rows []) as [e'|users] eqn:Hs.
    + intros H; inversion H; subst. apply scan_all_inl in Hs. tauto.
    + destruct (fault env AtRowsErr); intros H; inversion H; reflexivity.
  - intros user e s' H. apply Update_cases in H.
    destruct H as [[e0 [He _]]|[res [_ [_ He]]]].
    + inversion He. auto.
    + unfold affected_outcome in He. destruct (fault env AtRowsAffected).
      * inversion He. auto.
      * destruct (rows_affected res =? 0); inversion He. auto.
  - intros id e s' H. apply Delete_cases in H.
    destruct H as [[e0 [He _]]|[res [_ [_ He]]]].
    + inversion He. auto.
    + unfold affected_outcome in He. destruct (fault env AtRowsAffected).
      * inversion He. auto.
      * destruct (rows_affected res =? 0); inversion He. auto.
  - intros e s'. unfold Close, CloseDB.
    destruct (fault env AtClose); [destruct (closed (db s))|];
      intros H; inversion H; reflexivity.
Qed.

(** The failures of the scenario, each of its kind. *)
Lemma errors_by_operation_witness :
  (ErrDuplicateUser = ErrDuplicateUser \/ is_storage_error ErrDuplicateUser = true) /\
  (ErrUserNotFound = ErrUserNotFound \/ is_storage_error ErrUserNotFound = true).
Proof.
  destruct (errors_by_operation env0 store1) as [HC [HG _]].
  split.
  - apply (HC alice2 ErrDuplicateUser alice2 store1). reflexivity.
  - apply (HG 7 ErrUserNotFound). reflexivity.
Defined.

End OpeningAndErrors.

Section DeletingAndListing.

Import Scenario.

Lemma length_delete (t : list Row) (r : Row) :
  NoDup (map row_id t) -> In r t ->
  S (List.length (filter (fun x => negb (has_id (row_id r) x)) t)) = List.length t.
Proof.
  induction t as [|a t IH]; simpl; intros Hnd Hin; [destruct Hin|].
  inversion Hnd as [|x l Hnin Hnd']; subst.
  destruct Hin as [->|Hin].
  - assert (has_id (row_id r) r = true) as -> by (apply has_id_true; reflexivity).
    simpl. f_equal.
    assert (Hall : forall x, In x t -> negb (has_id (row_id r) x) = true).
    { intros x Hx. destruct (has_id (row_id r) x) eqn:E; [|reflexivity].
      apply has_id_true in E. exfalso. apply Hnin. rewrite <- E. apply in_map. exact Hx. }
    clear IH Hnd Hnd' Hnin. induction t as [|b t IH]; [reflexivity|].
    simpl. rewrite (Hall b (or_introl eq_refl)). simpl. f_equal.
    apply IH. intros x Hx. apply Hall. right. exact Hx.
  - destruct (has_id (row_id r) a) eqn:E.
    + apply has_id_true in E. exfalso. apply Hnin. rewrite E. apply in_map. exact Hin.
    + simpl. f_equal. apply IH; assumption.
Qed.

Lemma filter_twice {A} (p : A -> bool) (l : list A) :
  filter p (filter p l) = filter p l.
Proof.
  induction l as [|a l IH]; simpl; [reflexivity|].
  destruct (p a) eqn:E; simpl; [|exact IH]. rewrite E. f_equal. exact IH.
Qed.

Lemma find_deleted_self (id : Z) (t : list Row) :
  find (has_id id) (filter (fun r => negb (has_id id r)) t) = None.
Proof.
  induction t as [|a t IH]; simpl; [reflexivity|].
  destruct (has_id id a) eqn:E; simpl; [exact IH|]. rewrite E. exact IH.
Qed.

(** X4. On a reachable open store in a healthy environment, [Delete] of
    an id that a row has succeeds and removes exactly that row: [GetById]
    of the id then returns [ErrUserNotFound], so does a second [Delete],
    every other id reads as before, there is one row less, and the
    sequence of ids is not moved back. *)
Theorem Delete_removes_the_row h s env id :
  reachable h s ->
  healthy env ->
  closed (db s) = false ->
  (exists r, In r (table (db s)) /\ row_id r = id) ->
  exists s',
    Delete env s id = (None, s') /\
    GetById env s' id = inl ErrUserNotFound /\
    Delete env s' id = (Some ErrUserNotFound, s') /\
    (forall id', id' <> id -> GetById env s' id' = GetById env s id') /\
    S (List.length (table (db s'))) = List.length (table (db s)) /\
    seq (db s') = seq (db s).
Proof.
  intros Hr Hh Hc [r [Hin Hid]].
  pose proof (reachable_Inv h s Hr) as [Hnd _ _ _ _ _].
  exists (mkStore (mkDB (closed (db s))
                        (filter (fun x => negb (has_id id x)) (table (db s)))
                        (seq (db s)))).
  assert (Hcount : (Z.of_nat (List.length (filter (has_id id) (table (db s)))) =? 0) = false).
  { apply Z.eqb_neq. rewrite length_zero_iff, <- no_row_filter.
    intros Hno. exact (Hno r Hin Hid). }
  split; [|split; [|split; [|split; [|split]]]].
  - rewrite (Delete_healthy env Hh s id Hc), exec_delete_inr. simpl.
    rewrite Hcount. reflexivity.
  - rewrite GetById_healthy; [|assumption|exact Hc]. simpl.
    rewrite find_deleted_self. reflexivity.
  - rewrite Delete_healthy; [|assumption|exact Hc]. rewrite exec_delete_inr. simpl.
    assert (filter (has_id id) (filter (fun x => negb (has_id id x)) (table (db s))) = [])
      as ->.
    { apply filter_nil_iff. intros x Hx. apply filter_In in Hx.
      destruct (has_id id x); [destruct Hx; discriminate|reflexivity]. }
    rewrite filter_twice.
    simpl. rewrite Hc. reflexivity.
  - intros id' Hne. rewrite !GetById_healthy; try assumption. simpl.
    rewrite find_deleted; [reflexivity|congruence].
  - simpl. subst id. apply length_delete; assumption.
  - reflexivity.
Qed.

(** alice is deleted from the store that holds alice and bob. *)
Lemma Delete_removes_the_row_witness :
  exists s',
    Delete env0 store2 1 = (None, s') /\
    GetById env0 s' 1 = inl ErrUserNotFound /\
    Delete env0 s' 1 = (Some ErrUserNotFound, s') /\
    (forall id', id' <> 1 -> GetById env0 s' id' = GetById env0 store2 id') /\
    S (List.length (table (db s'))) = List.length (table (db store2)) /\
    seq (db s') = seq (db store2).
Proof.
  apply (Delete_removes_the_row [2; 1] store2 env0 1).
  - exact reachable_store2.
  - exact healthy_env0.
  - reflexivity.
  - exists (mkRow 1 "alice" "alice@x.com" 63900000000). split; [left|]; reflexivity.
Defined.

(** X5. On a reachable store in a healthy environment, [ListAll] and
    [GetById] agree: a record is in the list exactly when [GetById] of its
    id returns it; and no two records of the list share an id, a username
    or an email. *)
Theorem ListAll_agrees_with_GetById h s env users :
  reachable h s ->
  healthy env ->
  ListAll env s = inr users ->
  (forall u, In u users <-> GetById env s (ID u) = inr u) /\
  NoDup (map ID users) /\
  NoDup (map Username users) /\
  NoDup (map Email users).
Proof.
  intros Hr Hh HL.
  pose proof (reachable_Inv h s Hr) as [H1 H2 H3 _ _ _].
  assert (Hc : closed (db s) = false).
  { revert HL. unfold ListAll, QueryAll, conn. destruct (closed (db s)); [discriminate|].
    reflexivity. }
  rewrite (ListAll_healthy env s Hh Hc) in HL. inversion HL; subst users.
  split; [|split; [|split]].
  - intros u. rewrite (GetById_healthy env Hh s (ID u) Hc). split.
    + intros Hin. apply in_map_iff in Hin. destruct Hin as [r [<- Hin]]. simpl.
      rewrite (find_unique _ _ H1 Hin). reflexivity.
    + destruct (find (has_id (ID u)) (table (db s))) as [r|] eqn:F; [|discriminate].
      intros H. inversion H. apply in_map. apply find_some in F. tauto.
  - rewrite map_map. exact H1.
  - rewrite map_map. exact H2.
  - rewrite map_map. exact H3.
Qed.

Lemma ListAll_agrees_with_GetById_witness :
  In (mkUser 2 "bob" "bob@x.com" 63900000000)
     [mkUser 1 "alice" "alice@x.com" 63900000000; mkUser 2 "bob" "bob@x.com" 63900000000]
  <-> GetById env0 store2 2 = inr (mkUser 2 "bob" "bob@x.com" 63900000000).
Proof.
  destruct (ListAll_agrees_with_GetById [2; 1] store2 env0 _ reachable_store2
              healthy_env0 eq_refl) as [H _].
  exact (H (mkUser 2 "bob" "bob@x.com" 63900000000)).
Defined.


(** X7. On a reachable open store in a healthy environment, [GetById] of
    an id that no [Create] has assigned returns [ErrUserNotFound]. *)
Theorem GetById_of_unassigned_id h s env id :
  reachable h s ->
  healthy env ->
  closed (db s) = false ->
  ~ In id h ->
  GetById env s id = inl ErrUserNotFound.
Proof.
  intros Hr Hh Hc Hnin.
  pose proof (reachable_rows_assigned h s Hr) as Hrows.
  rewrite (GetById_healthy env Hh s id Hc).
  destruct (find (has_id id) (table (db s))) as [r|] eqn:F; [|reflexivity].
  apply find_some in F. destruct F as [Hin Hid]. apply has_id_true in Hid.
  rewrite Forall_forall in Hrows. specialize (Hrows r Hin). rewrite Hid in Hrows.
  contradiction.
Qed.

(** The id 999 of the tests, on the store that holds alice and bob. *)
Lemma GetById_of_unassigned_id_witness :
  GetById env0 store2 999 = inl ErrUserNotFound.
Proof.
  apply (GetById_of_unassigned_id [2; 1] store2 env0 999).
  - exact reachable_store2.
  - exact healthy_env0.
  - reflexivity.
  - simpl. intros [H|[H|[]]]; discriminate.
Defined.

End DeletingAndListing.

Section WritingAndReadingBack.

Import Scenario.

Lemma NoDup_map_eq {B} (f : Row -> B) (t : list Row) (a b : Row) :
  NoDup (map f t) -> In a t -> In b t -> f a = f b -> a = b.
Proof.
  induction t as [|x t IH]; simpl; intros Hnd Ha Hb Hf; [destruct Ha|].
  inversion Hnd as [|y l Hnin Hnd']; subst.
  destruct Ha as [->|Ha]; destruct Hb as [->|Hb]; auto.
  - exfalso. apply Hnin. rewrite Hf. apply in_map. exact Hb.
  - exfalso. apply Hnin. rewrite <- Hf. apply in_map. exact Ha.
Qed.

Lemma find_overwritten_same user (t : list Row) :
  find (has_id (ID user)) (overwritten user t)
  = option_map (fun r => mkRow (row_id r) (Username user) (Email user) (row_created_at r))
               (find (has_id (ID user)) t).
Proof.
  unfold overwritten, has_id. induction t as [|a t IH]; simpl; [reflexivity|].
  destruct (row_id a =? ID user) eqn:E; simpl; rewrite E; [reflexivity|exact IH].
Qed.

(** [Update], read backwards: a success ran the UPDATE on an open store,
    found the row and left the table overwritten. *)
Lemma Update_None env (s : sqlStore) (user : User) (s' : sqlStore) :
  Update env s user = (None, s') ->
  closed (db s) = false /\
  db s' = mkDB false (overwritten user (table (db s))) (seq (db s)) /\
  exists r, In r (table (db s)) /\ row_id r = ID user.
Proof.
  intros H. apply Update_cases in H.
  destruct H as [[e [He _]]|[res [Hc [Hx He]]]]; [discriminate|].
  apply conn_None in Hc. destruct Hc as [Hc _].
  unfold affected_outcome in He. destruct (fault env AtRowsAffected); [discriminate|].
  destruct (rows_affected res =? 0) eqn:E; [discriminate|]. apply Z.eqb_neq in E.
  apply exec_update_inr in Hx. destruct Hx as [[H0 _]|[_ [Hd Hrow]]]; [contradiction|].
  rewrite Hc in Hd. auto.
Qed.

(** X8. After a successful [Update] on a reachable store, [GetById] of
    the id returns the username and the email of the update under the id
    and the timestamp that the row had before, and every other id reads
    as before. *)
Theorem GetById_after_Update h s env user s' env' :
  reachable h s ->
  Update env s user = (None, s') ->
  healthy env' ->
  exists r,
    In r (table (db s)) /\
    row_id r = ID user /\
    GetById env' s' (ID user)
    = inr (mkUser (ID user) (Username user) (Email user) (row_created_at r)) /\
    forall id, id <> ID user -> GetById env' s' id = GetById env' s id.
Proof.
  intros Hr HU Hh.
  pose proof (reachable_Inv h s Hr) as [Hnd _ _ _ _ _].
  destruct (Update_None env s user s' HU) as [Hc [Hd [r [Hin Hid]]]].
  exists r. split; [exact Hin|]. split; [exact Hid|].
  assert (Hc' : closed (db s') = false) by (rewrite Hd; reflexivity).
  split.
  - rewrite (GetById_healthy env' Hh s' (ID user) Hc'), Hd. simpl.
    rewrite find_overwritten_same, <- Hid, (find_unique _ _ Hnd Hin). simpl.
    reflexivity.
  - intros id Hne. rewrite !GetById_healthy; try assumption.
    rewrite Hd. simpl. rewrite find_overwritten; [reflexivity|congruence].
Qed.

(** bob is renamed and read back. *)
Lemma GetById_after_Update_witness :
  exists r,
    In r (table (db store2)) /\
    row_id r = 2 /\
    GetById env0 (snd (Update env0 store2 (mkUser 2 "robert" "rob@x.com" 0))) 2
    = inr (mkUser 2 "robert" "rob@x.com" (row_created_at r)) /\
    forall id, id <> 2 ->
               GetById env0 (snd (Update env0 store2 (mkUser 2 "robert" "rob@x.com" 0))) id
               = GetById env0 store2 id.
Proof.
  apply (GetById_after_Update [2; 1] store2 env0 (mkUser 2 "robert" "rob@x.com" 0)
           (snd (Update env0 store2 (mkUser 2 "robert" "rob@x.com" 0))) env0).
  - exact reachable_store2.
  - reflexivity.
  - exact healthy_env0.
Defined.

(** X9. On a reachable store, [Update] with the record that [GetById] has
    just returned succeeds, in a healthy environment, and leaves the store
    exactly as it is. *)
Theorem Update_with_the_record_read h s env id u env' :
  reachable h s ->
  GetById env s id = inr u ->
  healthy env' ->
  Update env' s u = (None, s).
Proof.
  intros Hr HG Hh.
  pose proof (reachable_Inv h s Hr) as [H1 H2 H3 _ _ _].
  destruct (GetById_inr env s id u HG) as [Hc [r [F ->]]].
  apply find_some in F. destruct F as [Hin Hid]. apply has_id_true in Hid.
  assert (Hsame : overwritten (scan r) (table (db s)) = table (db s)).
  { unfold overwritten. rewrite <- (map_id (table (db s))) at 2.
    apply map_ext_in. intros x Hx. simpl.
    destruct (row_id x =? row_id r) eqn:E; [|reflexivity].
    apply Z.eqb_eq in E. rewrite (NoDup_map_eq row_id _ x r H1 Hx Hin E).
    destruct r; reflexivity. }
  destruct (exec_update_row (now env') (db s) (scan r)) as [res [Hx Hn]].
  - exists r. auto.
  - intros x Hx Hne. simpl in *. split; intros Heq; apply Hne; f_equal.
    + exact (NoDup_map_eq row_username _ x r H2 Hx Hin Heq).
    + exact (NoDup_map_eq row_email _ x r H3 Hx Hin Heq).
  - rewrite (Update_healthy env' Hh s (scan r) Hc), Hx, Hsame.
    apply Z.eqb_neq in Hn. rewrite Hn, store_eta. reflexivity.
Qed.

Lemma Update_with_the_record_read_witness :
  Update env0 store2 (mkUser 2 "bob" "bob@x.com" 63900000000) = (None, store2).
Proof.
  apply (Update_with_the_record_read [2; 1] store2 env0 2 _ env0).
  - exact reachable_store2.
  - reflexivity.
  - exact healthy_env0.
Defined.

(** X10. A [Create] that fails changes the caller's record in one case
    only: when [Commit] fails. The record then carries the id of the row
    that was rolled back, and the store, which is as before the call,
    has no row with that id. *)
Theorem Create_failure_and_the_record h s env user err user' s' :
  reachable h s ->
  Create env s user = (Some err, user', s') ->
  user' = user \/
  ((exists e, err = Errorf "failed to commit transaction : " e) /\
   fault env AtCommit <> None /\
   user' = set_ID (seq (db s) + 1) user /\
   s' = s /\
   forall r, In r (table (db s')) -> row_id r <> ID user').
Proof.
  intros Hr.
  pose proof (reachable_Inv h s Hr) as HI.
  pose proof (Create_spec env s user) as Hs.
  unfold Create, BeginTx in *.
  destruct (conn env AtBeginTx (db s)); [intros H; inversion H; auto|].
  unfold TxExecContext, LastInsertId, Commit, Rollback, restore in *. simpl in *.
  destruct (fault env AtExec); simpl in *.
  { rewrite Contains_fault. simpl. intros H; inversion H; auto. }
  destruct (exec_stmt (now env) (db s) (InsertUser (Username user) (Email user)))
    as [e0|[d' res]] eqn:Hx.
  { destruct (Contains (Error e0) "UNIQUE constraint failed"); simpl;
      intros H; inversion H; auto. }
  destruct (fault env AtLastInsertId); simpl in *; [intros H; inversion H; auto|].
  destruct (fault env AtCommit) eqn:FC; simpl in *; [|discriminate].
  intros H. inversion H; subst. right.
  destruct (Inv_insert _ _ _ _ _ _ _ HI Hx) as [Hid _].
  split; [eauto|]. split; [discriminate|]. split; [rewrite Hid; reflexivity|].
  split; [exact Hs|].
  intros r Hin. simpl in *. rewrite Hid.
  destruct HI as [_ _ _ H4 _ _]. rewrite Forall_forall in H4. specialize (H4 r Hin). lia.
Qed.

(** The commit of the first [Create] of the scenario fails. *)
Lemma Create_failure_and_the_record_witness :
  let env := mkEnv 63900000000
                   (fun st => match st with AtCommit => Some FIO | _ => None end) in
  Create env store0 alice
  = (Some (Errorf "failed to commit transaction : " ErrIO), set_ID 1 alice, store0) /\
  forall r, In r (table (db store0)) -> row_id r <> 1.
Proof.
  intros env. split; [reflexivity|].
  destruct (Create_failure_and_the_record [] store0 env alice _ _ store0
              reachable_store0 eq_refl) as [H|[_ [_ [_ [_ H]]]]].
  - inversion H.
  - exact H.
Defined.

(** X11. After a successful [Create] on a reachable store, [ListAll]
    returns the records it returned before and the new one, which holds
    the assigned id, the username and the email of the call and the clock
    of the insertion: one record more, none lost. *)
Theorem ListAll_after_Create h s env user user' s' env' :
  reachable h s ->
  Create env s user = (None, user', s') ->
  healthy env' ->
  exists before after,
    ListAll env' s = inr before /\
    ListAll env' s' = inr after /\
    List.length after = S (List.length before) /\
    forall u, In u after <->
              In u before \/
              u = mkUser (ID user') (Username user) (Email user) (now env).
Proof.
  intros Hr HC Hh.
  pose proof (Create_spec env s user) as Hs. rewrite HC in Hs.
  destruct Hs as [Hconn [_ [_ [res [Hx ->]]]]].
  apply conn_None in Hconn. destruct Hconn as [Hc _].
  pose proof (exec_stmt_closed _ _ _ _ _ Hx) as Hc'. rewrite Hc in Hc'.
  apply exec_insert_inr in Hx. simpl in Hx. destruct Hx as [_ [_ [Hd ->]]].
  exists (map scan (table (db s))), (map scan (table (db s'))).
  split; [apply ListAll_healthy; assumption|].
  split; [apply ListAll_healthy; assumption|].
  rewrite Hd. simpl. rewrite map_app. simpl. split.
  - rewrite length_app. simpl. lia.
  - intros u. rewrite in_app_iff. simpl. unfold scan at 2. simpl.
    split; intros [H|H]; auto.
    + destruct H as [H|[]]. auto.
Qed.

(** bob joins alice. *)
Lemma ListAll_after_Create_witness :
  exists before after,
    ListAll env0 store1 = inr before /\
    ListAll env0 store2 = inr after /\
    List.length after = S (List.length before) /\
    forall u, In u after <->
              In u before \/ u = mkUser 2 "bob" "bob@x.com" 63900000000.
Proof.
  exact (ListAll_after_Create [1] store1 env0 bob (set_ID 2 bob) store2 env0
           reachable_store1 eq_refl healthy_env0).
Defined.

(** X12. After a successful [Create], a [Create] of a record with the same
    username, whatever its email, or with the same email, whatever its
    username, fails with [ErrDuplicateUser], as long as the store is open,
    the environment healthy and an id left; record and store are left as
    they are. *)
Theorem Create_again_is_duplicate s env user user' s' env' other :
  Create env s user = (None, user', s') ->
  healthy env' ->
  exhausted (db s') = false ->
  Username other = Username user \/ Email other = Email user ->
  Create env' s' other = (Some ErrDuplicateUser, other, s').
Proof.
  intros HC Hh Hex Hsame.
  pose proof (Create_spec env s user) as Hs. rewrite HC in Hs.
  destruct Hs as [Hconn [_ [_ [res [Hx _]]]]].
  apply conn_None in Hconn. destruct Hconn as [Hc _].
  pose proof (exec_stmt_closed _ _ _ _ _ Hx) as Hc'. rewrite Hc in Hc'.
  apply exec_insert_inr in Hx. simpl in Hx. destruct Hx as [_ [_ [Hd _]]].
  rewrite (Create_healthy env' s' other Hh Hc').
  unfold exec_stmt. rewrite Hex.
  destruct (unique_violation_Some (fun _ => true) (table (db s'))
                                  (Username other) (Email other)) as [c ->];
    [|reflexivity].
  eexists. split; [rewrite Hd; simpl; apply in_or_app; right; left; reflexivity|].
  split; [reflexivity|]. simpl. destruct Hsame; auto.
Qed.

(** alice again, with another email. *)
Lemma Create_again_is_duplicate_witness :
  Create env0 store1 alice2 = (Some ErrDuplicateUser, alice2, store1).
Proof.
  apply (Create_again_is_duplicate store0 env0 alice (set_ID 1 alice) store1 env0 alice2).
  - reflexivity.
  - exact healthy_env0.
  - reflexivity.
  - left. reflexivity.
Defined.

End WritingAndReadingBack.

(* ------------------------------------------------------------------------- *)
(** ** Beyond the contract: the shell *)

Import Shell.

#[local] Arguments Create : simpl never.
#[local] Arguments GetById : simpl never.
#[local] Arguments ListAll : simpl never.
#[local] Arguments Update : simpl never.
#[local] Arguments Delete : simpl never.

Ltac world_simpl := cbn [fst snd stdin stdout store lines token negb orb].

(** Unfolds a turn into the primitives of the world, in one pass. *)
Ltac unfold_turn :=
  cbv beta iota zeta delta
      [iteration readLine bind println print printf emit scan text ret
       create getById listAll update delete Scan Text];
  world_simpl.

(** Splits on the lines that the turn reads. *)
Ltac take_lines :=
  repeat match goal with
         | |- context [match ?l with [] => _ | _ :: _ => _ end] =>
             is_var l; destruct l; world_simpl
         end.

Lemma bind_eq {A B : Type} (m : M A) (k : A -> M B) (w : World) :
  bind m k w = k (fst (m w)) (snd (m w)).
Proof. unfold bind. destruct (m w). reflexivity. Qed.

Lemma print_users_world (users : list User) (w : World) :
  stdin (snd (print_users users w)) = stdin w /\
  store (snd (print_users users w)) = store w.
Proof.
  revert w. induction users as [|u users IH]; intros w; [split; reflexivity|].
  simpl. rewrite bind_eq.
  match goal with
  | |- context [print_users users ?x] => destruct (IH x) as [H1 H2]
  end.
  rewrite H1, H2. split; reflexivity.
Qed.

Lemma print_users_stdout (users : list User) (w : World) :
  stdout (snd (print_users users w)) = (stdout w ++ map user_line users)%list.
Proof.
  revert w. induction users as [|u users IH]; intros w; simpl.
  - rewrite app_nil_r. reflexivity.
  - rewrite bind_eq, IH. simpl. rewrite <- app_assoc. reflexivity.
Qed.

(** Names the world after the loop of the listing, with what is known of
    it. *)
Ltac after_print_users :=
  match goal with
  | |- context [print_users ?us ?x] =>
      let Hin := fresh "Hin" in
      let Hst := fresh "Hst" in
      let Hout := fresh "Hout" in
      pose proof (proj1 (print_users_world us x)) as Hin;
      pose proof (proj2 (print_users_world us x)) as Hst;
      pose proof (print_users_stdout us x) as Hout;
      destruct (print_users us x) as [? ?];
      cbn [fst snd stdin stdout store lines token] in Hin, Hst, Hout;
      world_simpl
  end.

Section ShellFacts.

Variable TrimSpace : string -> string.
Variable ParseInt : string -> Z -> Z -> option Z.

(** The writes of one turn: what a turn does to the store is nothing, or
    one [Create] of a record with a username and an email that are not
    empty, or one [Update] of a record just read by [GetById] whose
    username and email are the read ones or not empty, or one [Delete] of a
    record just read, after the choice 4 and the answer y. The lines of the
    turn are counted from 0, and a line past the end of the input reads as
    the empty string. *)
Inductive turn_effect (env : Env) (w w' : World) : Prop :=
| turn_nothing :
    store w' = store w ->
    turn_effect env w w'
| turn_create u :
    Username u <> "" -> Email u <> "" ->
    snd (Create env (store w) u) = store w' ->
    turn_effect env w w'
| turn_update id u0 u :
    GetById env (store w) id = inr u0 ->
    ID u = ID u0 ->
    Username u = Username u0 \/ Username u <> "" ->
    Email u = Email u0 \/ Email u <> "" ->
    snd (Update env (store w) u) = store w' ->
    turn_effect env w w'
| turn_delete id u0 :
    nth 0 (lines (stdin w)) "" = "4" ->
    ParseInt (TrimSpace (nth 1 (lines (stdin w)) "")) 10 64 = Some id ->
    TrimSpace (nth 2 (lines (stdin w)) "") = "y" ->
    GetById env (store w) id = inr u0 ->
    snd (Delete env (store w) (ID u0)) = store w' ->
    turn_effect env w w'.

Lemma eqb_empty_false (x : string) : String.eqb x "" = false -> x <> "".
Proof. apply String.eqb_neq. Qed.

Lemma iteration_effect (env : Env) (w : World) :
  turn_effect env w (snd (iteration TrimSpace ParseInt env w)).
Proof.
  destruct w as [[tok ls] out st].
  unfold_turn.
  world_simpl.
  destruct ls as [|choice ls]; world_simpl.
  { apply turn_nothing. reflexivity. }
  destruct (String.eqb choice "1") eqn:E1; world_simpl.
  { take_lines.
    all: match goal with
         | |- context [String.eqb ?a "" || String.eqb ?b ""] =>
             destruct (String.eqb a "") eqn:Ea; world_simpl;
             [apply turn_nothing; reflexivity|];
             destruct (String.eqb b "") eqn:Eb; world_simpl;
             [try discriminate; apply turn_nothing; reflexivity|];
             apply (turn_create env _ _ (mkUser 0 a b 0));
             [apply eqb_empty_false; assumption|apply eqb_empty_false; assumption|];
             destruct (fst (fst (Create env st (mkUser 0 a b 0)))); reflexivity
         end. }
  destruct (String.eqb choice "2") eqn:E2; world_simpl.
  { destruct (ListAll env st) as [err|users]; world_simpl;
      [apply turn_nothing; reflexivity|].
    after_print_users. apply turn_nothing. exact Hst. }
  destruct (String.eqb choice "3") eqn:E3; world_simpl.
  { take_lines.
    all: match goal with
         | |- context [ParseInt ?a 10 64] =>
             destruct (ParseInt a 10 64) as [id|]; world_simpl;
             [|apply turn_nothing; reflexivity]
         end.
    all: destruct (GetById env st id) as [err|u0] eqn:HG; world_simpl;
      [apply turn_nothing; reflexivity|].
    all: match goal with
         | |- context [Update ?e ?s ?u] =>
             apply (turn_update e _ _ id u0 u); [exact HG| | | |]
         end.
    all: try match goal with
           | |- snd (Update _ _ _) = _ =>
               match goal with
               | |- context [fst (Update ?e ?s ?u)] =>
                   destruct (fst (Update e s u)); reflexivity
               end
           end.
    all: repeat match goal with
           | |- context [String.eqb ?a ""] =>
               destruct (String.eqb a "") eqn:?
           end; cbn [ID Username Email set_Username set_Email];
      try reflexivity; try (left; reflexivity);
      try (right; apply eqb_empty_false; assumption). }
  destruct (String.eqb choice "4") eqn:E4; world_simpl.
  { apply String.eqb_eq in E4. subst choice. take_lines.
    all: match goal with
         | |- context [ParseInt ?a 10 64] =>
             destruct (ParseInt a 10 64) as [id|] eqn:HP; world_simpl;
             [|apply turn_nothing; reflexivity]
         end.
    all: destruct (GetById env st id) as [err|u0] eqn:HG; world_simpl;
      [apply turn_nothing; reflexivity|].
    all: take_lines.
    all: match goal with
         | |- context [String.eqb ?a "y"] =>
             destruct (String.eqb a "y") eqn:Ey; world_simpl;
             [|apply turn_nothing; reflexivity]
         end.
    all: apply String.eqb_eq in Ey.
    all: apply (turn_delete env _ _ id u0);
      [reflexivity|exact HP|exact Ey|exact HG|].
    all: world_simpl; destruct (fst (Delete env st (ID u0))); reflexivity. }
  destruct (String.eqb choice "5"); apply turn_nothing; reflexivity.
Qed.

End ShellFacts.

Section StoreUnderTheShell.

Variable env : Env.

(** The three writes keep a store reachable. *)
Lemma reachable_after_Create h s u :
  reachable h s -> exists h', reachable h' (snd (Create env s u)).
Proof.
  intros Hr. destruct (Create env s u) as [[err u'] s'] eqn:H.
  eexists. simpl. eapply reach_Create; eauto.
Qed.

Lemma reachable_after_Update h s u :
  reachable h s -> exists h', reachable h' (snd (Update env s u)).
Proof.
  intros Hr. destruct (Update env s u) as [err s'] eqn:H.
  eexists. simpl. eapply reach_Update; eauto.
Qed.

Lemma reachable_after_Delete h s id :
  reachable h s -> exists h', reachable h' (snd (Delete env s id)).
Proof.
  intros Hr. destruct (Delete env s id) as [err s'] eqn:H.
  eexists. simpl. eapply reach_Delete; eauto.
Qed.

(** What each write does to the table. *)
Lemma Create_table s u :
  table (db (snd (Create env s u))) = table (db s) \/
  exists id,
    table (db (snd (Create env s u)))
    = (table (db s) ++ [mkRow id (Username u) (Email u) (now env)])%list.
Proof.
  pose proof (Create_spec env s u) as H.
  destruct (Create env s u) as [[[e|] u'] s']; simpl.
  - subst. auto.
  - destruct H as [_ [_ [_ [res [Hx _]]]]]. apply exec_insert_inr in Hx. simpl in Hx.
    destruct Hx as [_ [_ [-> _]]]. simpl. eauto.
Qed.

Lemma Update_table s u :
  table (db (snd (Update env s u))) = table (db s) \/
  table (db (snd (Update env s u))) = overwritten u (table (db s)).
Proof.
  destruct (Update env s u) as [err s'] eqn:H. simpl. apply Update_cases in H.
  destruct H as [[e [_ [-> _]]]|[res [_ [Hx _]]]]; [auto|].
  apply exec_update_inr in Hx. destruct Hx as [[_ [-> _]]|[_ [-> _]]]; auto.
Qed.

Lemma Delete_table s id :
  table (db (snd (Delete env s id))) = table (db s) \/
  table (db (snd (Delete env s id)))
  = filter (fun r => negb (has_id id r)) (table (db s)).
Proof.
  destruct (Delete env s id) as [err s'] eqn:H. simpl. apply Delete_cases in H.
  destruct H as [[e [_ [-> _]]]|[res [_ [Hx _]]]]; [auto|].
  rewrite exec_delete_inr in Hx. inversion Hx as [[Hd Hres]]. auto.
Qed.

Lemma Create_keeps_nonempty s u :
  nonempty_fields (db s) -> Username u <> "" -> Email u <> "" ->
  nonempty_fields (db (snd (Create env s u))).
Proof.
  unfold nonempty_fields. intros Hne Hu He.
  destruct (Create_table s u) as [->|[id ->]]; [assumption|].
  apply Forall_app. split; [assumption|]. constructor; [simpl; auto|constructor].
Qed.

Lemma Update_keeps_nonempty s u :
  nonempty_fields (db s) -> Username u <> "" -> Email u <> "" ->
  nonempty_fields (db (snd (Update env s u))).
Proof.
  unfold nonempty_fields. intros Hne Hu He.
  destruct (Update_table s u) as [->| ->]; [assumption|].
  apply nonempty_overwritten; assumption.
Qed.

Lemma Delete_keeps_nonempty s id :
  nonempty_fields (db s) -> nonempty_fields (db (snd (Delete env s id))).
Proof.
  unfold nonempty_fields. intros Hne.
  destruct (Delete_table s id) as [->| ->]; [assumption|].
  rewrite Forall_forall in *. intros r Hr. apply filter_In in Hr. apply Hne. tauto.
Qed.

(** The record that [GetById] returns is the scan of a stored row with
    the id asked for. *)
Lemma GetById_row s id u :
  GetById env s id = inr u ->
  ID u = id /\ exists r, In r (table (db s)) /\ u = Userstore.scan r.
Proof.
  intros H. apply GetById_inr in H. destruct H as [_ [r [F ->]]].
  apply find_some in F. destruct F as [Hin Hid]. apply has_id_true in Hid.
  split; [exact Hid|eauto].
Qed.

End StoreUnderTheShell.

Section ShellTheorems.

Import Scenario.

Variable TrimSpace : string -> string.
Variable ParseInt : string -> Z -> Z -> option Z.

(** One turn keeps the store reachable and its fields non-empty. *)
Lemma iteration_keeps_well_formed env w h :
  reachable h (store w) ->
  nonempty_fields (db (store w)) ->
  (exists h', reachable h' (store (snd (iteration TrimSpace ParseInt env w)))) /\
  nonempty_fields (db (store (snd (iteration TrimSpace ParseInt env w)))).
Proof.
  intros Hr Hne.
  destruct (iteration_effect TrimSpace ParseInt env w)
    as [H|u Hu He H|id u0 u HG Hid Hu He H|id u0 _ _ _ HG H].
  - rewrite H. eauto.
  - rewrite <- H. split.
    + eapply reachable_after_Create; eauto.
    + apply Create_keeps_nonempty; assumption.
  - rewrite <- H. split.
    + eapply reachable_after_Update; eauto.
    + apply GetById_row in HG. destruct HG as [_ [r [Hin ->]]].
      unfold nonempty_fields in Hne. rewrite Forall_forall in Hne.
      destruct (Hne r Hin) as [Hru Hre]. simpl in Hu, He.
      apply Update_keeps_nonempty; [exact (proj2 (Forall_forall _ _) Hne)| |].
      * destruct Hu as [->|Hu]; assumption.
      * destruct He as [->|He]; assumption.
  - rewrite <- H. split.
    + eapply reachable_after_Delete; eauto.
    + apply Delete_keeps_nonempty; assumption.
Qed.

Lemma loop_keeps_well_formed envs w h :
  reachable h (store w) ->
  nonempty_fields (db (store w)) ->
  (exists h', reachable h' (store (snd (loop TrimSpace ParseInt envs w)))) /\
  nonempty_fields (db (store (snd (loop TrimSpace ParseInt envs w)))).
Proof.
  revert w h. induction envs as [|env envs IH]; intros w h Hr Hne; [simpl; eauto|].
  simpl. rewrite bind_eq.
  destruct (iteration_keeps_well_formed env w h Hr Hne) as [[h' Hr'] Hne'].
  destruct (fst (iteration TrimSpace ParseInt env w)); [simpl; eauto|].
  eapply IH; eauto.
Qed.

End ShellTheorems.

Section ShellControl.

Variable TrimSpace : string -> string.
Variable ParseInt : string -> Z -> Z -> option Z.

(** Splits on whatever the turn branches on next. *)
Ltac next_branch :=
  world_simpl;
  match goal with
  | |- context [match ?l with [] => _ | _ :: _ => _ end] => is_var l; destruct l
  | |- context [if String.eqb ?a ?b then _ else _] => destruct (String.eqb a b) eqn:?
  | |- context [String.eqb ?a "" || String.eqb ?b ""] => destruct (String.eqb a "")
  | |- context [match ParseInt ?a ?b ?c with _ => _ end] => destruct (ParseInt a b c)
  | |- context [match GetById ?e ?s ?i with _ => _ end] => destruct (GetById e s i)
  | |- context [match ListAll ?e ?s with _ => _ end] => destruct (ListAll e s)
  | |- context [match fst (fst (Create ?e ?s ?u)) with _ => _ end] =>
      destruct (fst (fst (Create e s u)))
  | |- context [match fst (Update ?e ?s ?u) with _ => _ end] =>
      destruct (fst (Update e s u))
  | |- context [match fst (Delete ?e ?s ?i) with _ => _ end] =>
      destruct (fst (Delete e s i))
  | |- context [if negb ?b then _ else _] => destruct b
  end.

(** A comparison of two string literals that came out wrong. *)
Ltac contradict_eqb :=
  match goal with
  | H : String.eqb ?a ?b = _ |- _ => vm_compute in H; discriminate H
  end.

(** How one turn goes on: [main] returns exactly when the line read as the
    choice is 5, and the turn only consumes lines from the front of the
    input. *)
Lemma iteration_control (env : Env) (w : World) :
  (fst (iteration TrimSpace ParseInt env w) = true <-> nth 0 (lines (stdin w)) "" = "5") /\
  exists k, lines (stdin (snd (iteration TrimSpace ParseInt env w)))
            = skipn k (lines (stdin w)).
Proof.
  destruct w as [[tok ls] out st].
  unfold_turn.
  repeat next_branch; world_simpl.
  all: try (after_print_users; rewrite Hin).
  all: split;
    [ split;
      [ intros Ht;
        first [ discriminate Ht
              | simpl; try contradict_eqb;
                match goal with
                | H : String.eqb ?s "5" = true |- _ => apply String.eqb_eq; exact H
                end ]
      | simpl; intros H5;
        first [ reflexivity | discriminate H5 | subst; contradict_eqb ] ]
    | first [ exists 0%nat; reflexivity | exists 1%nat; reflexivity
            | exists 2%nat; reflexivity | exists 3%nat; reflexivity
            | exists 4%nat; reflexivity ] ].
Qed.

Lemma iteration_at_end (env : Env) (w : World) :
  lines (stdin w) = [] ->
  store (snd (iteration TrimSpace ParseInt env w)) = store w /\
  lines (stdin (snd (iteration TrimSpace ParseInt env w))) = [].
Proof.
  destruct w as [[tok ls] out st]. simpl. intros ->. split; reflexivity.
Qed.

Lemma in_skipn {A} (x : A) (k : nat) (l : list A) : In x (skipn k l) -> In x l.
Proof.
  revert l. induction k as [|k IH]; intros l; simpl; [auto|].
  destruct l as [|a l]; [auto|]. intros H. right. apply IH. exact H.
Qed.

Lemma loop_without_5 (envs : list Env) (w : World) :
  ~ In "5" (lines (stdin w)) ->
  fst (loop TrimSpace ParseInt envs w) = false /\
  ~ In "5" (lines (stdin (snd (loop TrimSpace ParseInt envs w)))).
Proof.
  revert w. induction envs as [|env envs IH]; intros w Hno; [simpl; auto|].
  simpl. rewrite bind_eq.
  destruct (iteration_control env w) as [Hret [k Hk]].
  destruct (fst (iteration TrimSpace ParseInt env w)) eqn:E.
  - exfalso. apply Hno. destruct Hret as [Hret _]. specialize (Hret eq_refl).
    destruct (lines (stdin w)) as [|l ls]; simpl in Hret; [discriminate|].
    left. exact Hret.
  - apply IH. rewrite Hk. intros Hin. apply Hno. eapply in_skipn. exact Hin.
Qed.

Lemma loop_at_end (envs : list Env) (w : World) :
  lines (stdin w) = [] ->
  store (snd (loop TrimSpace ParseInt envs w)) = store w.
Proof.
  revert w. induction envs as [|env envs IH]; intros w Hend; [reflexivity|].
  simpl. rewrite bind_eq.
  destruct (iteration_at_end env w Hend) as [Hs Hl].
  destruct (loop_without_5 [env] w) as [Hf _]; [rewrite Hend; intros []|].
  simpl in Hf. rewrite bind_eq in Hf.
  destruct (fst (iteration TrimSpace ParseInt env w)); [discriminate Hf|].
  rewrite IH; assumption.
Qed.

End ShellControl.

Section ShellContract.

Import Scenario.

Variable TrimSpace : string -> string.
Variable ParseInt : string -> Z -> Z -> option Z.

(** X13. Through the shell no user is stored without a username or an
    email. When [main] is started on the file that a reachable store with
    no empty field has written (a new file is one), then after any number
    of turns, on any input and in any environment, the store is reachable
    again, so that usernames and emails are unique, and no row has an
    empty username or email; when [main] has returned the store is also
    closed. *)
Theorem main_keeps_users_well_formed env_open envs env_close h s0 input :
  reachable h s0 ->
  nonempty_fields (db s0) ->
  match main TrimSpace ParseInt env_open envs env_close
             (File (table (db s0)) (seq (db s0))) input with
  | Fatal err => NewDb env_open (File (table (db s0)) (seq (db s0))) = inl err
  | Returned _ s =>
      closed (db s) = true /\
      nonempty_fields (db s) /\ unique_fields (db s) /\ exists h', reachable h' s
  | Looping w =>
      nonempty_fields (db (store w)) /\ unique_fields (db (store w)) /\
      exists h', reachable h' (store w)
  end.
Proof.
  intros Hr Hne. unfold main.
  destruct (NewDb env_open (File (table (db s0)) (seq (db s0)))) as [err|s] eqn:Hopen;
    [reflexivity|].
  assert (Hrs : reachable h s) by (eapply reach_reopen; eauto).
  assert (Hnes : nonempty_fields (db s)).
  { apply NewDb_inr in Hopen. simpl in Hopen. inversion Hopen as [Hd].
    unfold nonempty_fields. simpl. exact Hne. }
  destruct (loop_keeps_well_formed TrimSpace ParseInt envs
              (mkWorld (mkScanner "" input) [] s) h Hrs Hnes) as [[h' Hr'] Hne'].
  destruct (fst (loop TrimSpace ParseInt envs (mkWorld (mkScanner "" input) [] s))).
  - destruct (Close env_close
                (store (snd (loop TrimSpace ParseInt envs
                                  (mkWorld (mkScanner "" input) [] s)))))
      as [cerr sc] eqn:HC.
    pose proof (Close_state _ _ _ _ HC) as Hd. simpl.
    assert (Hrc : reachable h' sc) by (eapply reach_Close; eauto).
    split; [rewrite Hd; reflexivity|]. split; [|split; [|eauto]].
    + unfold nonempty_fields. rewrite Hd. exact Hne'.
    + eapply Inv_unique_fields, reachable_Inv, Hrc.
  - split; [exact Hne'|]. split; [|eauto].
    eapply Inv_unique_fields, reachable_Inv, Hr'.
Qed.

(** X14. [main] returns only on the choice 5: a turn ends the loop exactly
    when the line it reads as the choice is the string 5, as it is, not
    trimmed. On an input with no such line [main] is still looping after
    any number of turns, and on the empty input the store is the one that
    [NewDb] returned: the end of the input does not end the program. *)
Theorem main_returns_only_on_5 env_open envs env_close loc input s :
  NewDb env_open loc = inr s ->
  (forall env w,
      fst (iteration TrimSpace ParseInt env w) = true <->
      nth 0 (lines (stdin w)) "" = "5") /\
  (~ In "5" input ->
   exists w,
     main TrimSpace ParseInt env_open envs env_close loc input = Looping w /\
     (input = [] -> store w = s)).
Proof.
  intros Hopen. split.
  - intros env w. apply iteration_control.
  - intros Hno. unfold main. rewrite Hopen.
    destruct (loop_without_5 TrimSpace ParseInt envs
                (mkWorld (mkScanner "" input) [] s) Hno) as [Hf _].
    rewrite Hf. eexists. split; [reflexivity|].
    intros ->. apply (loop_at_end TrimSpace ParseInt envs
                        (mkWorld (mkScanner "" []) [] s)). reflexivity.
Qed.

(** X15. A turn of the shell removes a row only on the choice 4, for the
    id that the next line parses to, and only when the line after it,
    trimmed, is y: any other answer leaves every row in place. Lines are
    counted from the choice, and a line past the end of the input reads
    as the empty string. *)
Theorem shell_deletes_only_after_y env w id :
  In id (map row_id (table (db (store w)))) ->
  ~ In id (map row_id
               (table (db (store (snd (iteration TrimSpace ParseInt env w)))))) ->
  nth 0 (lines (stdin w)) "" = "4" /\
  ParseInt (TrimSpace (nth 1 (lines (stdin w)) "")) 10 64 = Some id /\
  TrimSpace (nth 2 (lines (stdin w)) "") = "y".
Proof.
  intros Hin Hout.
  destruct (iteration_effect TrimSpace ParseInt env w)
    as [H|u _ _ H|id0 u0 u _ _ _ _ H|id0 u0 H4 HP Hy HG H].
  - rewrite H in Hout. contradiction.
  - exfalso. apply Hout. rewrite <- H.
    destruct (Create_table env (store w) u) as [->|[i ->]]; [exact Hin|].
    rewrite map_app. apply in_or_app. left. exact Hin.
  - exfalso. apply Hout. rewrite <- H.
    destruct (Update_table env (store w) u) as [->| ->]; [exact Hin|].
    unfold overwritten. rewrite map_map.
    rewrite (map_ext _ row_id); [exact Hin|].
    intros r. destruct (row_id r =? ID u); reflexivity.
  - destruct (GetById_row env (store w) id0 u0 HG) as [Hid _].
    destruct (Z.eq_dec id id0) as [->|Hne]; [auto|].
    exfalso. apply Hout. rewrite <- H.
    destruct (Delete_table env (store w) (ID u0)) as [->| ->]; [exact Hin|].
    apply in_map_iff in Hin. destruct Hin as [r [Hr Hin]].
    apply in_map_iff. exists r. split; [exact Hr|].
    apply filter_In. split; [exact Hin|].
    assert (has_id (ID u0) r = false) as -> by (apply has_id_false; congruence).
    reflexivity.
Qed.

End ShellContract.

Section ShellWitnesses.

Import Scenario.

(** alice is created, an empty username is refused, and [main] returns. *)
Lemma main_keeps_users_well_formed_witness :
  match main (fun s => s) (fun _ _ _ => None) env0 [env0; env0; env0] env0
             (File (table (db store0)) (seq (db store0)))
             ["1"; "alice"; "alice@x.com"; "1"; ""; "nobody@x.com"; "5"] with
  | Fatal err => NewDb env0 (File (table (db store0)) (seq (db store0))) = inl err
  | Returned _ s =>
      closed (db s) = true /\
      nonempty_fields (db s) /\ unique_fields (db s) /\ exists h', reachable h' s
  | Looping w =>
      nonempty_fields (db (store w)) /\ unique_fields (db (store w)) /\
      exists h', reachable h' (store w)
  end.
Proof.
  apply (main_keeps_users_well_formed (fun s => s) (fun _ _ _ => None)
           env0 [env0; env0; env0] env0 [] store0).
  - exact reachable_store0.
  - constructor.
Defined.

(** The choice 5 with a space before it is not the choice 5. *)
Lemma main_returns_only_on_5_witness :
  exists w,
    main (fun s => s) (fun _ _ _ => None) env0 [env0; env0] env0 Memory [" 5"]
    = Looping w.
Proof.
  destruct (main_returns_only_on_5 (fun s => s) (fun _ _ _ => None)
              env0 [env0; env0] env0 Memory [" 5"] store0 eq_refl) as [_ H].
  destruct H as [w [Hw _]].
  - simpl. intros [H|[]]. discriminate H.
  - exists w. exact Hw.
Defined.

(** alice is deleted on the answer y. *)
Lemma shell_deletes_only_after_y_witness :
  let parse := fun (s : string) (_ _ : Z) => if String.eqb s "1" then Some 1 else None in
  let w := mkWorld (mkScanner "" ["4"; "1"; "y"]) [] store1 in
  nth 0 (lines (stdin w)) "" = "4" /\
  parse (nth 1 (lines (stdin w)) "") 10 64 = Some 1 /\
  nth 2 (lines (stdin w)) "" = "y".
Proof.
  intros parse w.
  apply (shell_deletes_only_after_y (fun s => s) parse env0 w 1).
  - left. reflexivity.
  - vm_compute. intros [].
Defined.

End ShellWitnesses.

Section ShellListing.

Import Scenario.

Variable TrimSpace : string -> string.
Variable ParseInt : string -> Z -> Z -> option Z.

(** X16. On the choice 2 the shell prints, after the menu and the header
    of the table, exactly one line for each record that [ListAll]
    returned, in that order, with its id, username, email and timestamp;
    it reads no other line and leaves the store as it is. When [ListAll]
    fails it prints the error instead and no record. *)
Theorem shell_lists_every_user env w rest :
  lines (stdin w) = "2" :: rest ->
  let w' := snd (iteration TrimSpace ParseInt env w) in
  store w' = store w /\
  lines (stdin w') = rest /\
  exists menu,
    List.length menu = 7%nat /\
    match ListAll env (store w) with
    | inr users =>
        stdout w'
        = (stdout w ++ menu
           ++ [Println [ArgString (LF ++ "  ID  |  Username  |  Email  | Created at  ")]]
           ++ map user_line users)%list
    | inl err =>
        stdout w'
        = (stdout w ++ menu
           ++ [Println [ArgString "failed to list users:"; ArgError err]])%list
    end.
Proof.
  destruct w as [[tok ls] out st]. simpl. intros ->.
  unfold_turn.
  world_simpl.
  change (String.eqb "2" "1") with false. change (String.eqb "2" "2") with true.
  world_simpl.
  destruct (ListAll env st) as [err|users]; world_simpl.
  - split; [reflexivity|]. split; [reflexivity|].
    eexists [_; _; _; _; _; _; _]. split; [reflexivity|].
    rewrite <- !app_assoc. simpl. reflexivity.
  - after_print_users. rewrite Hin, Hst, Hout.
    split; [reflexivity|]. split; [reflexivity|].
    eexists [_; _; _; _; _; _; _]. split; [reflexivity|].
    rewrite <- !app_assoc. simpl. reflexivity.
Qed.

End ShellListing.

Section ListingWitness.

Import Scenario.

(** alice and bob are listed. *)
Lemma shell_lists_every_user_witness :
  let w := mkWorld (mkScanner "" ["2"; "5"]) [] store2 in
  let w' := snd (iteration (fun s => s) (fun _ _ _ => None) env0 w) in
  store w' = store2 /\
  lines (stdin w') = ["5"] /\
  List.length (stdout w') = 10%nat.
Proof.
  intros w w'.
  destruct (shell_lists_every_user (fun s => s) (fun _ _ _ => None) env0 w ["5"] eq_refl)
    as [H1 [H2 [menu [Hm H3]]]].
  split; [exact H1|]. split; [exact H2|].
  change (ListAll env0 (store w)) with
    (@inr error _ [mkUser 1 "alice" "alice@x.com" 63900000000;
                   mkUser 2 "bob" "bob@x.com" 63900000000]) in H3.
  fold w' in H3. rewrite H3. simpl. rewrite length_app, Hm. reflexivity.
Defined.

(** A run of [main]: alice is created, then the choice 5. *)
Example main_creates_alice :
  match main (fun s => s) (fun _ _ _ => None) env0 [env0; env0] env0 (File [] 0)
             ["1"; " alice"; "alice@x.com"; "5"] with
  | Returned out s =>
      s = mkStore (mkDB true [mkRow 1 " alice" "alice@x.com" 63900000000] 1) /\
      last out (Print []) = Println [ArgString "Exiting program..."]
  | _ => False
  end.
Proof. vm_compute. split; reflexivity. Qed.

End ListingWitness.
